(** * AIND-Isolation: the search agent of [game_agent.py]

    A shallow embedding of [CustomPlayer.minimax], [CustomPlayer.alphabeta]
    and [CustomPlayer.get_move] (both the project agent and the competition
    agent), followed by the properties of the specification that concern
    them.

    Conventions of the embedding.
    - Utilities are Python floats that the search only ever compares
      ([<], [>], [<=], [>=], [max], [min]) and never adds: they are modelled
      as integers extended with the two infinities, the integers standing
      for the finite floats in their order.
    - [time_left] is a callable whose answer changes from call to call: it
      is modelled as the sequence of its readings, and a computation
      threads the number of calls made so far.
    - Exceptions are explicit outcomes.
    - The heuristic of the project agent is a parameter of its
      constructor and is taken as a function to utilities.  The heuristic
      of the competition agent is fixed by its constructor to the
      [custom_score] of its module, which multiplies floats and looks
      coordinates up in lists: it is embedded with the [nan] and the
      exceptions it can produce, and the search of that agent runs on its
      answers. *)

From Stdlib Require Import ZArith QArith List String Bool Lia ZifyBool.
Import ListNotations.

Local Open Scope Z_scope.

(** ** Utilities: [float] with [float("inf")] and [float("-inf")] *)

Inductive utility_value : Type :=
| NegInf
| Fin (x : Z)
| PosInf.

(** Python's [a < b] on utilities. *)
Definition ult (a b : utility_value) : bool :=
  match a, b with
  | NegInf, NegInf => false
  | NegInf, _ => true
  | Fin _, NegInf => false
  | Fin x, Fin y => x <? y
  | Fin _, PosInf => true
  | PosInf, _ => false
  end.

(** [a > b], [a <= b], [a >= b]. *)
Definition ugt (a b : utility_value) : bool := ult b a.
Definition ule (a b : utility_value) : bool := negb (ult b a).
Definition uge (a b : utility_value) : bool := negb (ult a b).

(** [max(a, b)] and [min(a, b)]: the second argument wins only when it is
    strictly better. *)
Definition umax (a b : utility_value) : utility_value := if ugt b a then b else a.
Definition umin (a b : utility_value) : utility_value := if ult b a then b else a.

(** ** Moves and players *)

Definition Move : Type := (Z * Z)%type.

Definition no_legal_moves : Move := (-1, -1).

Definition move_eqb (a b : Move) : bool :=
  (fst a =? fst b) && (snd a =? snd b).

Inductive Player : Type := Player1 | Player2.

Definition player_eqb (p q : Player) : bool :=
  match p, q with
  | Player1, Player1 | Player2, Player2 => true
  | _, _ => false
  end.

Definition get_opponent (p : Player) : Player :=
  match p with Player1 => Player2 | Player2 => Player1 end.

(** ** The board as the agent sees it

    [isolation.Board] is consumed through these attributes and methods only:
    [game.active_player], [game.inactive_player],
    [game.get_legal_moves(player)], [game.forecast_move(move)] and
    [game.utility(player)]. *)

Class Board (State : Type) : Type := {
  active_player : State -> Player;
  inactive_player : State -> Player;
  get_legal_moves : State -> Player -> list Move;
  forecast_move : State -> Move -> State;
  utility : State -> Player -> utility_value
}.

(** Modelled from the spec: [Board.utility] (module [isolation] is not part
    of the sources).  "utility(player): defined only when the game has
    ended; returns +inf if player has won, -inf if lost", where the game has
    ended for the active player when its legal-move sequence is empty, and
    that player is the one who has lost.  On a state that has not ended the
    spec leaves the answer open; the underlying board's answer is kept. *)
Definition spec_utility {State : Type} (B : Board State)
    (game : State) (player : Player) : utility_value :=
  match @get_legal_moves _ B game (@active_player _ B game) with
  | [] => if player_eqb player (@active_player _ B game) then NegInf else PosInf
  | _ :: _ => @utility _ B game player
  end.

Definition with_spec_utility {State : Type} (B : Board State) : Board State := {|
  active_player := @active_player _ B;
  inactive_player := @inactive_player _ B;
  get_legal_moves := @get_legal_moves _ B;
  forecast_move := @forecast_move _ B;
  utility := spec_utility B
|}.

(** ** The heuristics of [competition/game_agent.py]

    Besides the legal moves, the heuristics read the geometry of the
    board: [game.width], [game.height], [game.get_blank_spaces()],
    [game.get_player_location(player)] (which is [None] for a player who
    has not moved yet), [game.get_opponent(player)], [game.is_loser(player)]
    and [game.is_winner(player)].

    The factors are floats whose values are small integers ([1.0], [2.0],
    [4.0], their sums, a difference of two move counts), on which float
    arithmetic is exact: they are modelled as integers.  Only the product
    with the improved score can involve an infinity. *)

Module Scoring.

Class Arena (State : Type) : Type := {
  width : State -> Z;
  height : State -> Z;
  get_blank_spaces : State -> list Move;
  get_player_location : State -> Player -> option Move;
  get_opponent : State -> Player -> Player;
  is_loser : State -> Player -> bool;
  is_winner : State -> Player -> bool
}.

(** What a heuristic can raise: [TypeError] when [None] is unpacked into
    two coordinates, [ValueError] when [list.index] does not find its
    argument, [IndexError] when a list is indexed out of range. *)
Inductive error : Type := TypeError | ValueError | IndexError.

Inductive answer (A : Type) : Type :=
| Value (a : A)
| Fault (e : error).

Arguments Value {A} a.
Arguments Fault {A} e.

Definition and_then {A C : Type} (x : answer A) (k : A -> answer C) : answer C :=
  match x with
  | Value a => k a
  | Fault e => Fault e
  end.

(** A float: a utility, or [nan]. *)
Inductive pyfloat : Type :=
| Num (u : utility_value)
| NaN.

(** [a * b] for a finite float [a] of integer value [k]. *)
Definition times (k : Z) (u : utility_value) : pyfloat :=
  match u with
  | Fin x => Num (Fin (k * x))
  | PosInf =>
      if 0 <? k then Num PosInf else if k <? 0 then Num NegInf else NaN
  | NegInf =>
      if 0 <? k then Num NegInf else if k <? 0 then Num PosInf else NaN
  end.

(** [len(l)] *)
Definition len {A : Type} (l : list A) : Z := Z.of_nat (List.length l).

(** [x in l] on coordinates. *)
Definition contains (l : list Move) (x : Move) : bool :=
  existsb (move_eqb x) l.

(** [range(n)] *)
Definition range (n : Z) : list Z := map Z.of_nat (seq 0 (Z.to_nat n)).

(** [l.index(x)]: the first position of [x], or [ValueError]. *)
Fixpoint index (l : list Move) (x : Move) : answer nat :=
  match l with
  | [] => Fault ValueError
  | y :: rest =>
      if move_eqb y x then Value O
      else and_then (index rest x) (fun i => Value (S i))
  end.

(** [l[i]] for a non-negative [i]. *)
Definition item (l : list Move) (i : nat) : answer Move :=
  match nth_error l i with
  | Some x => Value x
  | None => Fault IndexError
  end.

(** [(a, b) = e]: unpacking the value of [get_player_location]. *)
Definition unpack (location : option Move) : answer Move :=
  match location with
  | Some p => Value p
  | None => Fault TypeError
  end.

Section Heuristics.

Context {State : Type} {B : Board State} {G : Arena State}.

Definition get_move_difference_factor (game : State) (player : Player) : Z :=
  let count_own_moves := len (get_legal_moves game player) in
  let count_opp_moves :=
    len (get_legal_moves game (get_opponent game player)) in
  count_own_moves - count_opp_moves.

(** [game.width / 2] is not an integer exactly when the width is odd, and
    [int(game.width / 2)] truncates towards zero. *)
Definition get_center_available_factor (game : State) (player : Player) : Z :=
  let own_moves := get_legal_moves game player in
  let center_available :=
    if Z.odd (width game) && Z.odd (height game)
    then
      let center_coords := (Z.quot (width game) 2, Z.quot (height game) 2) in
      contains own_moves center_coords
    else false in
  if center_available then 2 else 1.

(** Returns [1.0] or, by falling off its end, [None]. *)
Definition is_empty_board (count_total_positions count_empty_coords : Z)
    : option Z :=
  let all_empty := count_total_positions =? count_empty_coords in
  if all_empty then Some 1 else None.

(** Truth value of what [is_empty_board] returns. *)
Definition truthy (x : option Z) : bool :=
  match x with
  | Some v => negb (v =? 0)
  | None => false
  end.

Definition get_reflection_available_factor (game : State) (player : Player)
    : answer Z :=
  let count_total_positions := height game * width game in
  let count_empty_coords := len (get_blank_spaces game) in
  if truthy (is_empty_board count_total_positions count_empty_coords)
  then Value 1
  else
    let own_moves := get_legal_moves game player in
    let all_coords := list_prod (range (width game)) (range (height game)) in
    and_then (unpack (get_player_location game player)) (fun player_coords =>
    and_then (unpack (get_player_location game (get_opponent game player)))
      (fun opp_coords =>
    and_then (index all_coords player_coords) (fun player_index =>
    and_then (index all_coords opp_coords) (fun opp_index =>
    let mirrored_all_coords := rev all_coords in
    and_then (item mirrored_all_coords player_index) (fun mirrored_player_coords =>
    and_then (item mirrored_all_coords opp_index) (fun mirrored_opp_coords =>
    if contains own_moves mirrored_opp_coords then Value 2 else Value 1)))))).

(** The body of the loop of [get_partition_possible_factor] for one move:
    [Some] of the value returned, or [None] to go on with the next move. *)
Definition partition_of_move (empty_coords : list Move) (move : Move)
    : option Z :=
  let cell_left := (fst move - 1, snd move) in
  let cell_right := (fst move + 1, snd move) in
  let cell_below := (fst move, snd move - 1) in
  let cell_above := (fst move, snd move + 1) in
  let cell_left_x2 := (fst move - 2, snd move) in
  let cell_right_x2 := (fst move + 2, snd move) in
  let cell_below_x2 := (fst move, snd move - 2) in
  let cell_above_x2 := (fst move, snd move + 2) in
  let is_cell_left := negb (contains empty_coords cell_left) in
  let is_cell_right := negb (contains empty_coords cell_right) in
  let is_cell_below := negb (contains empty_coords cell_below) in
  let is_cell_above := negb (contains empty_coords cell_above) in
  let is_cell_left_x2 := negb (contains empty_coords cell_left_x2) in
  let is_cell_right_x2 := negb (contains empty_coords cell_right_x2) in
  let is_cell_below_x2 := negb (contains empty_coords cell_below_x2) in
  let is_cell_above_x2 := negb (contains empty_coords cell_above_x2) in
  if (is_cell_left && is_cell_left_x2) ||
     (is_cell_right && is_cell_right_x2) ||
     (is_cell_below && is_cell_below_x2) ||
     (is_cell_above && is_cell_above_x2)
  then Some 4
  else if is_cell_left || is_cell_right || is_cell_below || is_cell_above
  then Some 2
  else None.

Fixpoint partition_loop (empty_coords : list Move) (own_moves : list Move) : Z :=
  match own_moves with
  | [] => 1
  | move :: rest =>
      match partition_of_move empty_coords move with
      | Some factor => factor
      | None => partition_loop empty_coords rest
      end
  end.

Definition get_partition_possible_factor (game : State) (player : Player) : Z :=
  let count_total_positions := height game * width game in
  let count_empty_coords := len (get_blank_spaces game) in
  let empty_coords := get_blank_spaces game in
  if truthy (is_empty_board count_total_positions count_empty_coords)
  then 1
  else
    let own_moves := get_legal_moves game player in
    partition_loop empty_coords own_moves.

Definition get_improved_score_factor (game : State) (player : Player)
    : utility_value :=
  if is_loser game player then NegInf
  else if is_winner game player then PosInf
  else
    let own_moves := len (get_legal_moves game player) in
    let opp_moves := len (get_legal_moves game (get_opponent game player)) in
    Fin (own_moves - opp_moves).

Definition heuristic_1_center (game : State) (player : Player) : Z :=
  get_center_available_factor game player.

Definition heuristic_2_reflection (game : State) (player : Player) : answer Z :=
  get_reflection_available_factor game player.

Definition heuristic_3_partition (game : State) (player : Player) : Z :=
  get_partition_possible_factor game player.

Definition heuristic_combined_1_2 (game : State) (player : Player) : answer Z :=
  let center_available_factor := get_center_available_factor game player in
  and_then (get_reflection_available_factor game player)
    (fun reflection_available_factor =>
  Value (center_available_factor + reflection_available_factor)).

Definition heuristic_combined_1_3 (game : State) (player : Player) : Z :=
  let center_available_factor := get_center_available_factor game player in
  let partition_possible_factor := get_partition_possible_factor game player in
  center_available_factor + partition_possible_factor.

Definition heuristic_combined_2_3 (game : State) (player : Player) : answer Z :=
  and_then (get_reflection_available_factor game player)
    (fun reflection_available_factor =>
  let partition_possible_factor := get_partition_possible_factor game player in
  Value (reflection_available_factor + partition_possible_factor)).

Definition heuristic_combined_1_2_3 (game : State) (player : Player) : answer Z :=
  let center_available_factor := get_center_available_factor game player in
  and_then (get_reflection_available_factor game player)
    (fun reflection_available_factor =>
  let partition_possible_factor := get_partition_possible_factor game player in
  Value (center_available_factor + reflection_available_factor +
         partition_possible_factor)).

Definition heuristic_combined_1_2_3_with_improve_score
    (game : State) (player : Player) : answer pyfloat :=
  let center_available_factor := get_center_available_factor game player in
  and_then (get_reflection_available_factor game player)
    (fun reflection_available_factor =>
  let partition_possible_factor := get_partition_possible_factor game player in
  let improved_score_factor := get_improved_score_factor game player in
  Value (times (center_available_factor + reflection_available_factor +
                partition_possible_factor) improved_score_factor)).

(** [custom_score] of the competition agent; the table of heuristics is
    looked up with a key it always holds. *)
Definition custom_score (game : State) (player : Player) : answer pyfloat :=
  if is_loser game player then Value (Num NegInf)
  else if is_winner game player then Value (Num PosInf)
  else heuristic_combined_1_2_3_with_improve_score game player.

End Heuristics.

End Scoring.

(** ** Exceptions, outcomes and the deadline oracle *)

(** [HeuristicError e]: an exception raised inside the heuristic of the
    competition agent, see [Scoring.error]. *)
Inductive exn : Type :=
| Timeout
| ValueError (msg : string)
| UnboundLocalError (name : string)
| HeuristicError (e : Scoring.error).

Inductive outcome (A : Type) : Type :=
| Return (a : A)
| Raise (e : exn).

Arguments Return {A} a.
Arguments Raise {A} e.

(** The [k]-th reading of [time_left()], in milliseconds, counted from 0. *)
Definition Oracle : Type := nat -> Q.

(** A computation receives the number of readings taken so far and gives
    back its outcome with the updated count. *)
Definition M (A : Type) : Type := nat -> outcome A * nat.

Definition ret {A : Type} (a : A) : M A := fun clk => (Return a, clk).

Definition raise {A : Type} (e : exn) : M A := fun clk => (Raise e, clk).

Definition bind {A B : Type} (c : M A) (k : A -> M B) : M B :=
  fun clk =>
    match c clk with
    | (Return a, clk') => k a clk'
    | (Raise e, clk') => (Raise e, clk')
    end.

Declare Scope search_scope.
Delimit Scope search_scope with search.
Notation "x <- c ;; k" := (bind c (fun x => k))
  (at level 100, c at next level, right associativity) : search_scope.
Notation "c ;;; k" := (bind c (fun _ => k))
  (at level 100, right associativity) : search_scope.

(** [x < y] on times. *)
Definition Qltb (x y : Q) : bool := negb (Qle_bool y x).

(** ** [CustomPlayer] of [game_agent.py] *)

Record CustomPlayer (State : Type) : Type := {
  search_depth : nat;
  score : State -> Player -> utility_value;
  iterative : bool;
  method : string;
  TIMER_THRESHOLD : Q
}.

Arguments search_depth {State} _.
Arguments score {State} _ _ _.
Arguments iterative {State} _.
Arguments method {State} _.
Arguments TIMER_THRESHOLD {State} _.

Section Agent.

Context {State : Type} {B : Board State}.

(** [self], and [self.time_left] as [get_move] installs it. *)
Variable self : CustomPlayer State.
Variable time_left : Oracle.

Local Open Scope search_scope.

(** [if self.time_left() < self.TIMER_THRESHOLD: raise Timeout()] *)
Definition check_time : M unit :=
  fun clk =>
    if Qltb (time_left clk) (TIMER_THRESHOLD self)
    then (Raise Timeout, S clk)
    else (Return tt, S clk).

(** The [for move in remaining_legal_moves] loop of [minimax]; [recurse]
    is [self.minimax(_, depth - 1, not maximizing_player)]. *)
Fixpoint minimax_for (recurse : State -> M (utility_value * Move))
    (game : State) (maximizing_player : bool) (moves : list Move)
    (best_utility : utility_value) (best_move : Move)
    : M (utility_value * Move) :=
  match moves with
  | [] => ret (best_utility, best_move)
  | move :: rest =>
      let next_state := forecast_move game move in
      r <- recurse next_state ;;
      let forecast_utility := fst r in
      if maximizing_player then
        if ugt forecast_utility best_utility
        then minimax_for recurse game maximizing_player rest forecast_utility move
        else minimax_for recurse game maximizing_player rest best_utility best_move
      else
        if ult forecast_utility best_utility
        then minimax_for recurse game maximizing_player rest forecast_utility move
        else minimax_for recurse game maximizing_player rest best_utility best_move
  end.

(** [CustomPlayer.minimax].  [depth] counts down from a non-negative
    start ([search_depth] is documented strictly positive and the
    deepening loop counts up from 0), so it is a natural number. *)
Fixpoint minimax (depth : nat) (game : State) (maximizing_player : bool)
    : M (utility_value * Move) :=
  check_time ;;;
  let best_move := no_legal_moves in
  let best_utility := if maximizing_player then NegInf else PosInf in
  let current_player :=
    if maximizing_player then active_player game else inactive_player game in
  let remaining_legal_moves := get_legal_moves game (active_player game) in
  match remaining_legal_moves with
  | [] => ret (utility game current_player, no_legal_moves)
  | first :: _ =>
      match depth with
      | O => ret (score self game current_player, first)
      | S depth' =>
          minimax_for
            (fun next_state => minimax depth' next_state (negb maximizing_player))
            game maximizing_player remaining_legal_moves best_utility best_move
      end
  end.

(** The loop of [alphabeta], with its [break]s; [recurse] is
    [self.alphabeta(_, depth - 1, alpha, beta, not maximizing_player)]. *)
Fixpoint alphabeta_for
    (recurse : State -> utility_value -> utility_value -> M (utility_value * Move))
    (game : State) (maximizing_player : bool) (moves : list Move)
    (alpha beta : utility_value)
    (best_utility : utility_value) (best_move : Move)
    : M (utility_value * Move) :=
  match moves with
  | [] => ret (best_utility, best_move)
  | move :: rest =>
      let next_state := forecast_move game move in
      r <- recurse next_state alpha beta ;;
      let forecast_utility := fst r in
      if maximizing_player then
        if ugt forecast_utility best_utility then
          let best_utility := forecast_utility in
          let best_move := move in
          if uge best_utility beta
          then ret (best_utility, best_move)
          else alphabeta_for recurse game maximizing_player rest
                 (umax alpha best_utility) beta best_utility best_move
        else alphabeta_for recurse game maximizing_player rest
               alpha beta best_utility best_move
      else
        if ult forecast_utility best_utility then
          let best_utility := forecast_utility in
          let best_move := move in
          if ule best_utility alpha
          then ret (best_utility, best_move)
          else alphabeta_for recurse game maximizing_player rest
                 alpha (umin beta best_utility) best_utility best_move
        else alphabeta_for recurse game maximizing_player rest
               alpha beta best_utility best_move
  end.

(** [CustomPlayer.alphabeta]. *)
Fixpoint alphabeta (depth : nat) (game : State)
    (alpha beta : utility_value) (maximizing_player : bool)
    : M (utility_value * Move) :=
  check_time ;;;
  let best_move := no_legal_moves in
  let best_utility := if maximizing_player then NegInf else PosInf in
  let current_player :=
    if maximizing_player then active_player game else inactive_player game in
  let remaining_legal_moves := get_legal_moves game (active_player game) in
  match remaining_legal_moves with
  | [] => ret (utility game current_player, no_legal_moves)
  | first :: _ =>
      match depth with
      | O => ret (score self game current_player, first)
      | S depth' =>
          alphabeta_for
            (fun next_state a b =>
               alphabeta depth' next_state a b (negb maximizing_player))
            game maximizing_player remaining_legal_moves alpha beta
            best_utility best_move
      end
  end.

(** The dispatch on [self.method] that [get_move] writes out in both of
    its modes; the searches are called with their default arguments. *)
Definition search_by_method (game : State) (depth : nat)
    : M (utility_value * Move) :=
  if String.eqb (method self) "minimax" then minimax depth game true
  else if String.eqb (method self) "alphabeta"
       then alphabeta depth game NegInf PosInf true
       else raise (ValueError "Invalid method").

(** The local variable [best_move] of [get_move] is bound by the first
    search that returns; reading it before that raises. *)
Definition read_best_move (best_move : option Move) : outcome Move :=
  match best_move with
  | Some m => Return m
  | None => Raise (UnboundLocalError "best_move")
  end.

(** The [while True] loop inside the [try].  [fuel] bounds the number of
    iterations the model follows; [None] means the loop is still running
    after that many.  The result carries the binding of [best_move] at
    the moment the [try] block is left. *)
Fixpoint deepening_loop (fuel : nat) (game : State) (depth : nat)
    (best_move : option Move) (clk : nat)
    : option (outcome Move * option Move * nat) :=
  match fuel with
  | O => None
  | S fuel' =>
      let depth := S depth in
      match search_by_method game depth clk with
      | (Raise e, clk') => Some (Raise e, best_move, clk')
      | (Return r, clk') =>
          let best_move := snd r in
          if Qle_bool (time_left clk') (1 # 1000)
          then Some (Return best_move, Some best_move, S clk')
          else deepening_loop fuel' game depth (Some best_move) (S clk')
      end
  end.

(** The fixed-depth branch of the [try]. *)
Definition fixed_depth_search (game : State) (depth : nat) (clk : nat)
    : option (outcome Move * option Move * nat) :=
  match search_by_method game depth clk with
  | (Raise e, clk') => Some (Raise e, None, clk')
  | (Return r, clk') => Some (Return (snd r), Some (snd r), clk')
  end.

(** [CustomPlayer.get_move].  The readings of [time_left] are counted
    from the call. *)
Definition get_move (fuel : nat) (game : State) (legal_moves : list Move)
    : option (outcome Move * nat) :=
  let remaining_legal_moves := legal_moves in
  match remaining_legal_moves with
  | [] => Some (Return no_legal_moves, O)
  | _ :: _ =>
      let depth := if iterative self then O else search_depth self in
      let body :=
        if iterative self
        then deepening_loop fuel game depth None O
        else fixed_depth_search game depth O in
      match body with
      | None => None
      | Some (Raise Timeout, best_move, clk) =>
          Some (read_best_move best_move, clk)
      | Some (r, _, clk) => Some (r, clk)
      end
  end.

End Agent.

(** ** The competition agent, [competition/game_agent.py] *)

Module Competition.

(** [__init__(self, data=None, timeout=1.)] keeps [timeout] as
    [self.TIMER_THRESHOLD]; [data] is not used.  The heuristic is not a
    parameter of this agent: [self.score = custom_score]. *)
Record CustomPlayer : Type := {
  TIMER_THRESHOLD : Q
}.

(** The search compares the floats the heuristic returns; a comparison
    with [nan] is false, whichever it is. *)
Definition flt (a b : Scoring.pyfloat) : bool :=
  match a, b with
  | Scoring.Num x, Scoring.Num y => ult x y
  | _, _ => false
  end.

Definition fle (a b : Scoring.pyfloat) : bool :=
  match a, b with
  | Scoring.Num x, Scoring.Num y => ule x y
  | _, _ => false
  end.

Definition fgt (a b : Scoring.pyfloat) : bool := flt b a.
Definition fge (a b : Scoring.pyfloat) : bool := fle b a.

(** [max(a, b)] and [min(a, b)]. *)
Definition fmax (a b : Scoring.pyfloat) : Scoring.pyfloat :=
  if fgt b a then b else a.
Definition fmin (a b : Scoring.pyfloat) : Scoring.pyfloat :=
  if flt b a then b else a.

(** [float("-inf")] and [float("inf")]. *)
Definition neg_inf : Scoring.pyfloat := Scoring.Num NegInf.
Definition pos_inf : Scoring.pyfloat := Scoring.Num PosInf.

(** A call of the heuristic from the search: what the heuristic raises
    propagates to the caller of the search. *)
Definition call {A : Type} (x : Scoring.answer A) : M A :=
  match x with
  | Scoring.Value a => ret a
  | Scoring.Fault e => raise (HeuristicError e)
  end.

Section Agent.

Context {State : Type} {B : Board State} {G : Scoring.Arena State}.

Variable self : CustomPlayer.
Variable time_left : Oracle.

Local Open Scope search_scope.

(** [self.score], as [__init__] binds it. *)
Definition score (game : State) (player : Player)
    : Scoring.answer Scoring.pyfloat :=
  Scoring.custom_score game player.

Definition check_time : M unit :=
  fun clk =>
    if Qltb (time_left clk) (TIMER_THRESHOLD self)
    then (Raise Timeout, S clk)
    else (Return tt, S clk).

Fixpoint alphabeta_for
    (recurse : State -> Scoring.pyfloat -> Scoring.pyfloat ->
               M (Scoring.pyfloat * Move))
    (game : State) (maximizing_player : bool) (moves : list Move)
    (alpha beta : Scoring.pyfloat)
    (best_utility : Scoring.pyfloat) (best_move : Move)
    : M (Scoring.pyfloat * Move) :=
  match moves with
  | [] => ret (best_utility, best_move)
  | move :: rest =>
      let next_state := forecast_move game move in
      r <- recurse next_state alpha beta ;;
      let forecast_utility := fst r in
      if maximizing_player then
        if fgt forecast_utility best_utility then
          let best_utility := forecast_utility in
          let best_move := move in
          if fge best_utility beta
          then ret (best_utility, best_move)
          else alphabeta_for recurse game maximizing_player rest
                 (fmax alpha best_utility) beta best_utility best_move
        else alphabeta_for recurse game maximizing_player rest
               alpha beta best_utility best_move
      else
        if flt forecast_utility best_utility then
          let best_utility := forecast_utility in
          let best_move := move in
          if fle best_utility alpha
          then ret (best_utility, best_move)
          else alphabeta_for recurse game maximizing_player rest
                 alpha (fmin beta best_utility) best_utility best_move
        else alphabeta_for recurse game maximizing_player rest
               alpha beta best_utility best_move
  end.

(** [CustomPlayer.alphabeta]. *)
Fixpoint alphabeta (depth : nat) (game : State)
    (alpha beta : Scoring.pyfloat) (maximizing_player : bool)
    : M (Scoring.pyfloat * Move) :=
  check_time ;;;
  let best_move := no_legal_moves in
  let best_utility := if maximizing_player then neg_inf else pos_inf in
  let current_player :=
    if maximizing_player then active_player game else inactive_player game in
  let remaining_legal_moves := get_legal_moves game (active_player game) in
  match remaining_legal_moves with
  | [] => ret (Scoring.Num (utility game current_player), no_legal_moves)
  | first :: _ =>
      match depth with
      | O =>
          s <- call (score game current_player) ;;
          ret (s, first)
      | S depth' =>
          alphabeta_for
            (fun next_state a b =>
               alphabeta depth' next_state a b (negb maximizing_player))
            game maximizing_player remaining_legal_moves alpha beta
            best_utility best_move
      end
  end.

(** The [while True] loop; here [best_move] is bound before the loop, and
    the search is called with its default window. *)
Fixpoint deepening_loop (fuel : nat) (game : State) (depth : nat)
    (best_move : Move) (clk : nat)
    : option (outcome Move * Move * nat) :=
  match fuel with
  | O => None
  | S fuel' =>
      let depth := S depth in
      match alphabeta depth game neg_inf pos_inf true clk with
      | (Raise e, clk') => Some (Raise e, best_move, clk')
      | (Return r, clk') =>
          let best_move := snd r in
          if Qle_bool (time_left clk') (1 # 1000)
          then Some (Return best_move, best_move, S clk')
          else deepening_loop fuel' game depth best_move (S clk')
      end
  end.

(** [CustomPlayer.get_move]; [drawn_depth] is the value of
    [random.randint(9, 12)].  Only [Timeout] is caught. *)
Definition get_move (fuel : nat) (drawn_depth : nat) (game : State)
    : option (outcome Move * nat) :=
  let remaining_legal_moves := get_legal_moves game (active_player game) in
  let best_move := no_legal_moves in
  match remaining_legal_moves with
  | [] => Some (Return no_legal_moves, O)
  | _ :: _ =>
      match deepening_loop fuel game drawn_depth best_move O with
      | None => None
      | Some (Raise Timeout, best_move, clk) => Some (Return best_move, clk)
      | Some (r, _, clk) => Some (r, clk)
      end
  end.

End Agent.

End Competition.

(** ** The value plain minimax computes, without clock or exceptions

    Used to state what the two searches have in common. *)

Section Value.

Context {State : Type} {B : Board State}.

Variable heuristic : State -> Player -> utility_value.

Definition better (maximizing_player : bool) (best v : utility_value)
    : utility_value :=
  if maximizing_player
  then (if ugt v best then v else best)
  else (if ult v best then v else best).

Fixpoint minimax_value (depth : nat) (game : State) (maximizing_player : bool)
    : utility_value :=
  let current_player :=
    if maximizing_player then active_player game else inactive_player game in
  match get_legal_moves game (active_player game) with
  | [] => utility game current_player
  | _ :: _ =>
      match depth with
      | O => heuristic game current_player
      | S depth' =>
          fold_left
            (fun best move =>
               better maximizing_player best
                 (minimax_value depth' (forecast_move game move)
                    (negb maximizing_player)))
            (get_legal_moves game (active_player game))
            (if maximizing_player then NegInf else PosInf)
      end
  end.

End Value.

(** ** Explicit game trees

    A board given by its game tree: who is to move, the heuristic worth of
    the position for [Player1], and the successor reached by each legal
    move. *)

#[local] Unset Elimination Schemes.
Inductive GameTree : Type :=
| Node (to_move : Player) (worth : Z) (branches : list (Move * GameTree)).
#[local] Set Elimination Schemes.

Definition tree_to_move (t : GameTree) : Player :=
  match t with Node p _ _ => p end.

Definition tree_branches (t : GameTree) : list (Move * GameTree) :=
  match t with Node _ _ bs => bs end.

Definition tree_moves (t : GameTree) (player : Player) : list Move :=
  if player_eqb player (tree_to_move t)
  then map fst (tree_branches t)
  else [].

Definition tree_forecast (t : GameTree) (move : Move) : GameTree :=
  match find (fun b => move_eqb (fst b) move) (tree_branches t) with
  | Some b => snd b
  | None => t
  end.

Definition tree_rules : Board GameTree := {|
  active_player := tree_to_move;
  inactive_player := fun t => get_opponent (tree_to_move t);
  get_legal_moves := tree_moves;
  forecast_move := tree_forecast;
  utility := fun _ _ => Fin 0
|}.

#[export] Instance tree_board : Board GameTree := with_spec_utility tree_rules.

Definition tree_score (t : GameTree) (player : Player) : utility_value :=
  match t, player with
  | Node _ w _, Player1 => Fin w
  | Node _ w _, Player2 => Fin (- w)
  end.

(** A position lost in two plies: the only move of [Player1] lets
    [Player2] answer [(2, 0)], after which [Player1] cannot move. *)
Definition lost_in_two : GameTree :=
  Node Player1 0
    [ ((1, 2),
       Node Player2 0
         [ ((2, 0), Node Player1 0 []);
           ((2, 2), Node Player1 1 [ ((2, 0), Node Player2 0 []) ]) ]) ].

(** A position whose active player cannot move. *)
Definition stuck : GameTree := Node Player1 0 [].

(** A small open position with two moves. *)
Definition open_position : GameTree :=
  Node Player1 0
    [ ((0, 1), Node Player2 3 [ ((1, 1), Node Player1 2 []);
                                 ((1, 2), Node Player1 5 [ ((0, 0), Node Player2 1 []) ]) ]);
      ((2, 1), Node Player2 4 [ ((0, 0), Node Player1 7 [ ((1, 2), Node Player2 6 []) ]);
                                 ((0, 2), Node Player1 1 [ ((1, 0), Node Player2 9 []) ]) ]) ].

Definition fixed_player (depth : nat) (m : string) : CustomPlayer GameTree := {|
  search_depth := depth;
  score := tree_score;
  iterative := false;
  method := m;
  TIMER_THRESHOLD := 10
|}.

Definition deepening_player (m : string) : CustomPlayer GameTree := {|
  search_depth := 3;
  score := tree_score;
  iterative := true;
  method := m;
  TIMER_THRESHOLD := 10
|}.

(** A game tree has no cells: as an arena it is the board of width and
    height 0, nobody is placed, and a player has lost when it is to move
    and cannot. *)
#[export] Instance tree_arena : Scoring.Arena GameTree := {|
  Scoring.width := fun _ => 0;
  Scoring.height := fun _ => 0;
  Scoring.get_blank_spaces := fun _ => [];
  Scoring.get_player_location := fun _ _ => None;
  Scoring.get_opponent := fun _ p => get_opponent p;
  Scoring.is_loser := fun t p =>
    player_eqb p (tree_to_move t) &&
    match tree_branches t with [] => true | _ => false end;
  Scoring.is_winner := fun t p =>
    player_eqb p (get_opponent (tree_to_move t)) &&
    match tree_branches t with [] => true | _ => false end
|}.

Definition competition_player : Competition.CustomPlayer := {|
  Competition.TIMER_THRESHOLD := 1
|}.

(** Oracles: plenty of time at every reading, none at all, exactly the
    threshold. *)
Definition ample : Oracle := fun _ => 99%Q.
Definition expired : Oracle := fun _ => 0%Q.
Definition on_threshold : Oracle := fun _ => 10%Q.

(** An oracle with plenty of time for its first [n] readings and none
    afterwards. *)
Definition ample_then_expired (n : nat) : Oracle :=
  fun k => if (k <? n)%nat then 99%Q else 0%Q.


(** ** Vocabulary of the properties *)

(** What a search with a window knows about the true value.

    [bracket alpha beta m v]: [v] is what a search with window
    [(alpha, beta)] may answer when plain minimax answers [m].  Inside the
    window the answer is exact; at or below [alpha] it only bounds [m] from
    above, at or above [beta] only from below. *)

Definition bracket (alpha beta m v : utility_value) : Prop :=
  (ule v alpha = true -> ule m v = true) /\
  (uge v beta = true -> ule v m = true) /\
  (ult alpha v = true -> ult v beta = true ->
   ule v m = true /\ ule m v = true).

Section Exits.

Context {State : Type}.
Variable self : CustomPlayer State.
Variable time_left : Oracle.

(** An exception that comes out of a search is [Timeout], raised on a
    reading below the threshold, and that reading is the last one taken. *)
Definition timed_out (e : exn) (clk : nat) : Prop :=
  e = Timeout /\
  exists k, clk = S k /\ (time_left k < TIMER_THRESHOLD self)%Q.

(** [self.method] names neither search. *)
Definition invalid_method : Prop :=
  method self <> "minimax"%string /\ method self <> "alphabeta"%string.

End Exits.

Section Deepening.

Context {State : Type} {B : Board State}.
Variable self : CustomPlayer State.
Variable time_left : Oracle.
Variable game : State.

(** Where the deepening loop of [get_move] stands when it starts an
    iteration.  [deepened n clk best_move]: the searches at the depths 1
    to [n] have been run one after the other from the first reading on,
    each of them has returned, and the reading taken after each of them was
    above 0.001; [clk] readings have been taken so far, and [best_move] is
    the binding of the local variable, none before the first search has
    returned and the move of the search at depth [n] afterwards. *)
Inductive deepened : nat -> nat -> option Move -> Prop :=
| deepened_start : deepened 0 0 None
| deepened_step (n clk : nat) (best_move : option Move)
    (v : utility_value) (m : Move) (clk' : nat) :
    deepened n clk best_move ->
    search_by_method self time_left game (S n) clk = (Return (v, m), clk') ->
    (1 # 1000 < time_left clk')%Q ->
    deepened (S n) (S clk') (Some m).

End Deepening.

Section CompetitionExits.

Context {State : Type} {B : Board State} {G : Scoring.Arena State}.
Variable self : Competition.CustomPlayer.
Variable time_left : Oracle.


End CompetitionExits.

(** Case analysis on utilities, finished by linear arithmetic. *)

Ltac utility_cases :=
  repeat match goal with
         | u : utility_value |- _ => destruct u
         end.

Ltac split_tests :=
  repeat match goal with
         | H : context [if ?x <? ?y then _ else _] |- _ =>
             destruct (Z.ltb_spec x y); simpl in H
         | |- context [if ?x <? ?y then _ else _] =>
             destruct (Z.ltb_spec x y); simpl
         end.

Ltac utility_order :=
  unfold umax, umin, ugt, uge, ule in *; utility_cases; simpl in *;
  split_tests;
  solve [ reflexivity | discriminate | lia | f_equal; lia | intuition lia ].

(** ** Further vocabulary and code covered beyond the claims *)

(** The number of nodes of the game tree cut at [depth]. *)
Fixpoint tree_nodes {State : Type} {B : Board State} (depth : nat) (game : State)
    : nat :=
  match get_legal_moves game (active_player game) with
  | [] => 1
  | _ :: _ =>
      match depth with
      | O => 1
      | S depth' =>
          S (fold_left
               (fun n move => (n + tree_nodes depth' (forecast_move game move))%nat)
               (get_legal_moves game (active_player game)) O)
      end
  end.

(** [v] is strictly better than [w] for the layer. *)
Definition beats (maximizing_player : bool) (v w : utility_value) : bool :=
  if maximizing_player then ugt v w else ult v w.

Definition initial_best (maximizing_player : bool) : utility_value :=
  if maximizing_player then NegInf else PosInf.

(** A board with its geometry written out, for examples. *)
Record Layout : Type := {
  layout_width : Z;
  layout_height : Z;
  layout_blank : list Move;
  layout_turn : Player;
  layout_at : Player -> option Move;
  layout_moves : Player -> list Move
}.

#[export] Instance layout_board : Board Layout := {|
  active_player := layout_turn;
  inactive_player := fun g => get_opponent (layout_turn g);
  get_legal_moves := layout_moves;
  forecast_move := fun g _ => g;
  utility := fun _ _ => Fin 0
|}.

#[export] Instance layout_arena : Scoring.Arena Layout := {|
  Scoring.width := layout_width;
  Scoring.height := layout_height;
  Scoring.get_blank_spaces := layout_blank;
  Scoring.get_player_location := fun g p => layout_at g p;
  Scoring.get_opponent := fun _ p => get_opponent p;
  Scoring.is_loser := fun g p =>
    player_eqb p (layout_turn g) &&
    match layout_moves g p with [] => true | _ => false end;
  Scoring.is_winner := fun g p =>
    player_eqb p (get_opponent (layout_turn g)) &&
    match layout_moves g (layout_turn g) with [] => true | _ => false end
|}.

(** A 3 by 3 board on which [(0, 2)] is used up: [Player1] stands on
    [(0, 0)], [Player2] on [(1, 0)], and it is [Player1]'s turn. *)
Definition three_by_three : Layout := {|
  layout_width := 3;
  layout_height := 3;
  layout_blank := [(0, 1); (1, 1); (1, 2); (2, 0); (2, 1); (2, 2)];
  layout_turn := Player1;
  layout_at := fun p =>
    match p with Player1 => Some (0, 0) | Player2 => Some (1, 0) end;
  layout_moves := fun p =>
    match p with
    | Player1 => [(1, 2); (2, 1)]
    | Player2 => [(2, 2)]
    end
|}.

(** The same board when only [Player1] has moved. *)
Definition one_player_placed : Layout := {|
  layout_width := 3;
  layout_height := 3;
  layout_blank := [(0, 1); (0, 2); (1, 0); (1, 1); (1, 2); (2, 0); (2, 1); (2, 2)];
  layout_turn := Player2;
  layout_at := fun p =>
    match p with Player1 => Some (0, 0) | Player2 => None end;
  layout_moves := fun p =>
    match p with
    | Player1 => [(1, 2); (2, 1)]
    | Player2 => [(0, 1); (0, 2); (1, 0); (1, 1); (1, 2); (2, 0); (2, 1); (2, 2)]
    end
|}.

(** A board 2 wide and 3 high on which [Player1] stands in the last row. *)
Definition tall_board : Layout := {|
  layout_width := 2;
  layout_height := 3;
  layout_blank := [(0, 1); (1, 0); (1, 1); (2, 1)];
  layout_turn := Player1;
  layout_at := fun p =>
    match p with Player1 => Some (2, 0) | Player2 => Some (0, 0) end;
  layout_moves := fun p =>
    match p with
    | Player1 => [(0, 1)]
    | Player2 => [(2, 1)]
    end
|}.

From Stdlib Require Import Ascii.

(** ** The log level of [main.py]

    Command-line arguments are taken to be ASCII text, on which
    [str.upper] maps the letters [a-z] to [A-Z] and nothing else. *)

Module Logging.

Local Open Scope string_scope.

(** What [get_log_level] can raise. *)
Inductive error : Type :=
| IndexError
| ValueError (msg : string).

Inductive answer (A : Type) : Type :=
| Value (a : A)
| Fault (e : error).

Arguments Value {A} a.
Arguments Fault {A} e.


(** [s.split("=", 1)]: one piece when [s] has no ["="], else the text
    before the first ["="] and the text after it. *)
Fixpoint split_once (s : string) : list string :=
  match s with
  | EmptyString => [EmptyString]
  | String c rest =>
      if Ascii.eqb c "="%char then [EmptyString; rest]
      else
        match split_once rest with
        | head :: tail => String c head :: tail
        | [] => [String c EmptyString]
        end
  end.

Definition upper_char (c : ascii) : ascii :=
  let n := nat_of_ascii c in
  if ((97 <=? n) && (n <=? 122))%nat then ascii_of_nat (n - 32) else c.

(** [s.upper()] *)
Fixpoint upper (s : string) : string :=
  match s with
  | EmptyString => EmptyString
  | String c rest => String (upper_char c) (upper rest)
  end.

Definition valid_levels : list string := ["DEBUG"; "INFO"; "WARNING"; "ERROR"].

Definition get_log_level (log_args : list string) : answer string :=
  match log_args with
  | [] => Fault IndexError
  | first :: _ =>
      match nth_error (split_once first) 1 with
      | None => Fault IndexError
      | Some text =>
          let proposed_level := upper text in
          if negb (existsb (String.eqb proposed_level) valid_levels)
          then Fault (ValueError ("Invalid log level: " ++ proposed_level))
          else Value proposed_level
      end
  end.


End Logging.



(** * Properties *)

(** ** The order on utilities *)

Lemma ult_irrefl (a : utility_value) : ult a a = false.
Proof. utility_order. Qed.

Lemma ule_refl (a : utility_value) : ule a a = true.
Proof. utility_order. Qed.

Lemma ule_trans (a b c : utility_value) :
  ule a b = true -> ule b c = true -> ule a c = true.
Proof. intros; utility_order. Qed.

Lemma ule_antisym (a b : utility_value) :
  ule a b = true -> ule b a = true -> a = b.
Proof. intros; utility_order. Qed.

Lemma ule_NegInf (a : utility_value) : ule NegInf a = true.
Proof. utility_order. Qed.

Lemma ule_PosInf (a : utility_value) : ule a PosInf = true.
Proof. utility_order. Qed.

Lemma umax_NegInf (a : utility_value) : umax a NegInf = a.
Proof. utility_order. Qed.

Lemma umin_PosInf (b : utility_value) : umin b PosInf = b.
Proof. utility_order. Qed.

Lemma umax_absorb (a best v : utility_value) :
  ugt v best = true -> umax (umax a best) v = umax a v.
Proof. intros; utility_order. Qed.

Lemma umin_absorb (b best v : utility_value) :
  ult v best = true -> umin (umin b best) v = umin b v.
Proof. intros; utility_order. Qed.

Lemma bracket_exact (alpha beta m : utility_value) : bracket alpha beta m m.
Proof. repeat split; intros; auto using ule_refl. Qed.

Lemma bracket_full_window (m v : utility_value) :
  bracket NegInf PosInf m v -> v = m.
Proof.
  intros (Hlo & Hhi & Hin).
  destruct v.
  - apply ule_antisym; [apply ule_NegInf | apply Hlo; reflexivity].
  - apply ule_antisym; apply Hin; reflexivity.
  - apply ule_antisym; [apply Hhi; reflexivity | apply ule_PosInf].
Qed.

(** A maximizing layer: the three ways an iteration of the loop can go. *)

Lemma max_layer_cut (a0 b best m v m' : utility_value) :
  ult a0 b = true ->
  bracket (umax a0 best) b m v ->
  uge v b = true ->
  ule m m' = true ->
  bracket a0 b m' v.
Proof.
  unfold bracket. intros Hab (_ & Hhi & _) Hcut Hm.
  specialize (Hhi Hcut). clear best.
  utility_order.
Qed.

Lemma max_layer_improve (a0 b best mpre m v : utility_value) :
  ult a0 b = true ->
  ult best b = true ->
  bracket a0 b mpre best ->
  bracket (umax a0 best) b m v ->
  ugt v best = true ->
  uge v b = false ->
  bracket a0 b (better true mpre m) v /\ ult v b = true.
Proof.
  unfold bracket, better. intros; utility_order.
Qed.

Lemma max_layer_keep (a0 b best mpre m v : utility_value) :
  ult a0 b = true ->
  ult best b = true ->
  bracket a0 b mpre best ->
  bracket (umax a0 best) b m v ->
  ugt v best = false ->
  bracket a0 b (better true mpre m) best.
Proof.
  unfold bracket, better. intros; utility_order.
Qed.

(** A minimizing layer, symmetrically. *)

Lemma min_layer_cut (a b0 best m v m' : utility_value) :
  ult a b0 = true ->
  bracket a (umin b0 best) m v ->
  ule v a = true ->
  ule m' m = true ->
  bracket a b0 m' v.
Proof.
  unfold bracket. intros Hab (Hlo & _ & _) Hcut Hm.
  specialize (Hlo Hcut). clear best.
  utility_order.
Qed.

Lemma min_layer_improve (a b0 best mpre m v : utility_value) :
  ult a b0 = true ->
  ult a best = true ->
  bracket a b0 mpre best ->
  bracket a (umin b0 best) m v ->
  ult v best = true ->
  ule v a = false ->
  bracket a b0 (better false mpre m) v /\ ult a v = true.
Proof.
  unfold bracket, better. intros; utility_order.
Qed.

Lemma min_layer_keep (a b0 best mpre m v : utility_value) :
  ult a b0 = true ->
  ult a best = true ->
  bracket a b0 mpre best ->
  bracket a (umin b0 best) m v ->
  ult v best = false ->
  bracket a b0 (better false mpre m) best.
Proof.
  unfold bracket, better. intros; utility_order.
Qed.

Lemma better_max_grows (best v : utility_value) :
  ule best (better true best v) = true /\ ule v (better true best v) = true.
Proof. unfold better; utility_order. Qed.

Lemma better_min_shrinks (best v : utility_value) :
  ule (better false best v) best = true /\ ule (better false best v) v = true.
Proof. unfold better; utility_order. Qed.

Lemma fold_better_max_grows {A : Type} (f : A -> utility_value) (l : list A) :
  forall x, ule x (fold_left (fun best a => better true best (f a)) l x) = true.
Proof.
  induction l as [|a l IH]; intros x; simpl.
  - apply ule_refl.
  - eapply ule_trans; [apply (better_max_grows x (f a)) | apply IH].
Qed.

Lemma fold_better_min_shrinks {A : Type} (f : A -> utility_value) (l : list A) :
  forall x, ule (fold_left (fun best a => better false best (f a)) l x) x = true.
Proof.
  induction l as [|a l IH]; intros x; simpl.
  - apply ule_refl.
  - eapply ule_trans; [apply IH | apply (better_min_shrinks x (f a))].
Qed.

(** ** The searches under an oracle that never triggers the check *)

Section NoTimeout.

Context {State : Type} {B : Board State}.
Variable self : CustomPlayer State.
Variable time_left : Oracle.

Hypothesis never_below :
  forall k, (TIMER_THRESHOLD self <= time_left k)%Q.

Lemma check_time_passes (clk : nat) :
  check_time self time_left clk = (Return tt, S clk).
Proof.
  unfold check_time, Qltb.
  destruct (Qle_bool (TIMER_THRESHOLD self) (time_left clk)) eqn:E; [reflexivity|].
  pose proof (never_below clk) as Hk.
  apply Qle_bool_iff in Hk. congruence.
Qed.

Lemma minimax_for_value
    (recurse : State -> M (utility_value * Move)) (val : State -> utility_value)
    (game : State) (mx : bool) :
  (forall g clk, exists mv clk', recurse g clk = (Return (val g, mv), clk')) ->
  forall moves best bm clk,
  exists mv clk',
    minimax_for recurse game mx moves best bm clk =
    (Return (fold_left
               (fun b move => better mx b (val (forecast_move game move)))
               moves best, mv), clk').
Proof.
  intros Hrec moves.
  induction moves as [|move rest IH]; intros best bm clk; simpl.
  - exists bm, clk. reflexivity.
  - unfold bind.
    destruct (Hrec (forecast_move game move) clk) as (mv & clk' & ->).
    simpl. unfold better.
    destruct mx.
    + destruct (ugt (val (forecast_move game move)) best); apply IH.
    + destruct (ult (val (forecast_move game move)) best); apply IH.
Qed.

Lemma minimax_value_returned (depth : nat) :
  forall game mx clk,
  exists mv clk',
    minimax self time_left depth game mx clk =
    (Return (minimax_value (score self) depth game mx, mv), clk').
Proof.
  induction depth as [|depth IH]; intros game mx clk.
  - simpl. unfold bind. rewrite check_time_passes.
    destruct (get_legal_moves game (active_player game)) as [|first rest];
      eexists _, _; reflexivity.
  - simpl. unfold bind. rewrite check_time_passes.
    destruct (get_legal_moves game (active_player game)) as [|first rest] eqn:E.
    + eexists _, _; reflexivity.
    + apply (minimax_for_value
               (fun next_state => minimax self time_left depth next_state (negb mx))
               (fun g => minimax_value (score self) depth g (negb mx))).
      intros g c. apply IH.
Qed.

Lemma alphabeta_for_max
    (recurse : State -> utility_value -> utility_value -> M (utility_value * Move))
    (val : State -> utility_value) (game : State) :
  (forall g a b clk, ult a b = true ->
     exists v mv clk',
       recurse g a b clk = (Return (v, mv), clk') /\ bracket a b (val g) v) ->
  forall moves a0 b best bm mpre clk,
    ult a0 b = true -> ult best b = true -> bracket a0 b mpre best ->
    exists v mv clk',
      alphabeta_for recurse game true moves (umax a0 best) b best bm clk =
      (Return (v, mv), clk') /\
      bracket a0 b
        (fold_left (fun x move => better true x (val (forecast_move game move)))
           moves mpre) v.
Proof.
  intros Hrec moves.
  induction moves as [|move rest IH]; intros a0 b best bm mpre clk Hab Hbest Hpre.
  - simpl. exists best, bm, clk. split; [reflexivity | exact Hpre].
  - assert (Hwin : ult (umax a0 best) b = true) by utility_order.
    destruct (Hrec (forecast_move game move) _ _ clk Hwin)
      as (v & mv & clk' & Hcall & Hv).
    cbn [alphabeta_for]. unfold bind. rewrite Hcall. cbn [fst fold_left].
    set (m := val (forecast_move game move)) in *.
    destruct (ugt v best) eqn:Himp.
    + destruct (uge v b) eqn:Hcut.
      * exists v, move, clk'. split; [reflexivity|].
        eapply max_layer_cut; eauto.
        eapply ule_trans;
          [apply (better_max_grows mpre m) | apply fold_better_max_grows].
      * destruct (max_layer_improve a0 b best mpre m v) as (Hnew & Hlt); auto.
        rewrite umax_absorb by exact Himp.
        apply IH; auto.
    + apply IH; auto.
      eapply max_layer_keep; eauto.
Qed.

Lemma alphabeta_for_min
    (recurse : State -> utility_value -> utility_value -> M (utility_value * Move))
    (val : State -> utility_value) (game : State) :
  (forall g a b clk, ult a b = true ->
     exists v mv clk',
       recurse g a b clk = (Return (v, mv), clk') /\ bracket a b (val g) v) ->
  forall moves a b0 best bm mpre clk,
    ult a b0 = true -> ult a best = true -> bracket a b0 mpre best ->
    exists v mv clk',
      alphabeta_for recurse game false moves a (umin b0 best) best bm clk =
      (Return (v, mv), clk') /\
      bracket a b0
        (fold_left (fun x move => better false x (val (forecast_move game move)))
           moves mpre) v.
Proof.
  intros Hrec moves.
  induction moves as [|move rest IH]; intros a b0 best bm mpre clk Hab Hbest Hpre.
  - simpl. exists best, bm, clk. split; [reflexivity | exact Hpre].
  - assert (Hwin : ult a (umin b0 best) = true) by utility_order.
    destruct (Hrec (forecast_move game move) _ _ clk Hwin)
      as (v & mv & clk' & Hcall & Hv).
    cbn [alphabeta_for]. unfold bind. rewrite Hcall. cbn [fst fold_left].
    set (m := val (forecast_move game move)) in *.
    destruct (ult v best) eqn:Himp.
    + destruct (ule v a) eqn:Hcut.
      * exists v, move, clk'. split; [reflexivity|].
        eapply min_layer_cut; eauto.
        eapply ule_trans;
          [apply fold_better_min_shrinks | apply (better_min_shrinks mpre m)].
      * destruct (min_layer_improve a b0 best mpre m v) as (Hnew & Hlt); auto.
        rewrite umin_absorb by exact Himp.
        apply IH; auto.
    + apply IH; auto.
      eapply min_layer_keep; eauto.
Qed.

Lemma alphabeta_brackets_minimax (depth : nat) :
  forall game alpha beta mx clk,
    ult alpha beta = true ->
    exists v mv clk',
      alphabeta self time_left depth game alpha beta mx clk =
      (Return (v, mv), clk') /\
      bracket alpha beta (minimax_value (score self) depth game mx) v.
Proof.
  induction depth as [|depth IH]; intros game alpha beta mx clk Hab.
  - simpl. unfold bind. rewrite check_time_passes.
    destruct (get_legal_moves game (active_player game)) as [|first rest];
      eexists _, _, _; (split; [reflexivity | apply bracket_exact]).
  - simpl. unfold bind. rewrite check_time_passes.
    destruct (get_legal_moves game (active_player game)) as [|first rest] eqn:E.
    + eexists _, _, _; (split; [reflexivity | apply bracket_exact]).
    + set (recurse := fun next_state a b =>
                        alphabeta self time_left depth next_state a b (negb mx)).
      assert (Hrec : forall g a b c, ult a b = true ->
                exists v mv c',
                  recurse g a b c = (Return (v, mv), c') /\
                  bracket a b (minimax_value (score self) depth g (negb mx)) v)
        by (intros; apply IH; assumption).
      destruct mx.
      * pose proof (alphabeta_for_max recurse _ game Hrec (first :: rest)
                      alpha beta NegInf no_legal_moves NegInf (S clk)) as Hloop.
        rewrite umax_NegInf in Hloop.
        apply Hloop; auto using bracket_exact.
        utility_order.
      * pose proof (alphabeta_for_min recurse _ game Hrec (first :: rest)
                      alpha beta PosInf no_legal_moves PosInf (S clk)) as Hloop.
        rewrite umin_PosInf in Hloop.
        apply Hloop; auto using bracket_exact.
        utility_order.
Qed.

End NoTimeout.

(** ** Alpha-beta against minimax *)

(** C1. Under a time oracle that never triggers the timeout check,
    [alphabeta] called with the default bounds [-inf] and [+inf] returns,
    and returns the same utility as [minimax] on the same state at the same
    depth, whatever the heuristic and the layer: pruning does not change
    the value. *)
Theorem alphabeta_value_is_minimax_value
    {State : Type} {B : Board State}
    (self : CustomPlayer State) (time_left : Oracle)
    (depth : nat) (game : State) (maximizing_player : bool) (clk : nat) :
  (forall k, (TIMER_THRESHOLD self <= time_left k)%Q) ->
  exists v move_ab clk_ab move_mm clk_mm,
    alphabeta self time_left depth game NegInf PosInf maximizing_player clk =
      (Return (v, move_ab), clk_ab) /\
    minimax self time_left depth game maximizing_player clk =
      (Return (v, move_mm), clk_mm).
Proof.
  intros Hnever.
  destruct (minimax_value_returned self time_left Hnever depth game
              maximizing_player clk) as (move_mm & clk_mm & Hmm).
  destruct (alphabeta_brackets_minimax self time_left Hnever depth game
              NegInf PosInf maximizing_player clk eq_refl)
    as (v & move_ab & clk_ab & Hab & Hv).
  apply bracket_full_window in Hv. subst v.
  exists (minimax_value (score self) depth game maximizing_player),
         move_ab, clk_ab, move_mm, clk_mm.
  split; assumption.
Qed.

Lemma alphabeta_value_is_minimax_value_witness :
  exists v move_ab clk_ab move_mm clk_mm,
    alphabeta (fixed_player 3 "alphabeta") ample 3 open_position
      NegInf PosInf true 0%nat = (Return (v, move_ab), clk_ab) /\
    minimax (fixed_player 3 "alphabeta") ample 3 open_position true 0%nat =
      (Return (v, move_mm), clk_mm).
Proof.
  apply (alphabeta_value_is_minimax_value
           (fixed_player 3 "alphabeta") ample 3 open_position true 0%nat).
  intro k. unfold ample, Qle. simpl. lia.
Defined.

(** ** Entry of a search node *)

Lemma check_time_below {State : Type}
    (self : CustomPlayer State) (time_left : Oracle) (clk : nat) :
  (time_left clk < TIMER_THRESHOLD self)%Q ->
  check_time self time_left clk = (Raise Timeout, S clk).
Proof.
  intros Hlt. unfold check_time, Qltb.
  destruct (Qle_bool (TIMER_THRESHOLD self) (time_left clk)) eqn:E; [|reflexivity].
  apply Qle_bool_iff in E. exfalso. exact (Qlt_not_le _ _ Hlt E).
Qed.

Lemma check_time_at_or_above {State : Type}
    (self : CustomPlayer State) (time_left : Oracle) (clk : nat) :
  (TIMER_THRESHOLD self <= time_left clk)%Q ->
  check_time self time_left clk = (Return tt, S clk).
Proof.
  intros Hle. unfold check_time, Qltb.
  apply Qle_bool_iff in Hle. now rewrite Hle.
Qed.

Lemma competition_check_time_below
    (self : Competition.CustomPlayer) (time_left : Oracle) (clk : nat) :
  (time_left clk < Competition.TIMER_THRESHOLD self)%Q ->
  Competition.check_time self time_left clk = (Raise Timeout, S clk).
Proof.
  intros Hlt. unfold Competition.check_time, Qltb.
  destruct (Qle_bool (Competition.TIMER_THRESHOLD self) (time_left clk)) eqn:E;
    [|reflexivity].
  apply Qle_bool_iff in E. exfalso. exact (Qlt_not_le _ _ Hlt E).
Qed.

Lemma competition_check_time_at_or_above
    (self : Competition.CustomPlayer) (time_left : Oracle) (clk : nat) :
  (Competition.TIMER_THRESHOLD self <= time_left clk)%Q ->
  Competition.check_time self time_left clk = (Return tt, S clk).
Proof.
  intros Hle. unfold Competition.check_time, Qltb.
  apply Qle_bool_iff in Hle. now rewrite Hle.
Qed.

Lemma minimax_aborts_below {State : Type} {B : Board State}
    (self : CustomPlayer State) (time_left : Oracle)
    (depth : nat) (game : State) (maximizing_player : bool) (clk : nat) :
  (time_left clk < TIMER_THRESHOLD self)%Q ->
  minimax self time_left depth game maximizing_player clk = (Raise Timeout, S clk).
Proof.
  intros Hlt. destruct depth; simpl; unfold bind; now rewrite check_time_below.
Qed.

Lemma alphabeta_aborts_below {State : Type} {B : Board State}
    (self : CustomPlayer State) (time_left : Oracle)
    (depth : nat) (game : State) (alpha beta : utility_value)
    (maximizing_player : bool) (clk : nat) :
  (time_left clk < TIMER_THRESHOLD self)%Q ->
  alphabeta self time_left depth game alpha beta maximizing_player clk =
    (Raise Timeout, S clk).
Proof.
  intros Hlt. destruct depth; simpl; unfold bind; now rewrite check_time_below.
Qed.

(** Every call of a search takes at least the reading at its entry. *)

Lemma check_time_clock {State : Type}
    (self : CustomPlayer State) (time_left : Oracle) (clk : nat)
    (r : outcome unit) (clk' : nat) :
  check_time self time_left clk = (r, clk') -> clk' = S clk.
Proof.
  unfold check_time.
  destruct (Qltb (time_left clk) (TIMER_THRESHOLD self));
    intros H; inversion H; reflexivity.
Qed.

Section Clock.

Context {State : Type} {B : Board State}.
Variable self : CustomPlayer State.
Variable time_left : Oracle.

Lemma minimax_for_clock
    (recurse : State -> M (utility_value * Move)) (game : State) (mx : bool) :
  (forall g c r c', recurse g c = (r, c') -> (S c <= c')%nat) ->
  forall moves best bm c r c',
    minimax_for recurse game mx moves best bm c = (r, c') ->
    (c <= c')%nat /\ (moves <> [] -> (S c <= c')%nat).
Proof.
  intros Hrec moves.
  induction moves as [|move rest IH]; intros best bm c r c'; simpl.
  - intros H. inversion H; subst. split; [lia | congruence].
  - unfold bind.
    destruct (recurse (forecast_move game move) c) as [[res | e] c1] eqn:Hcall;
      apply Hrec in Hcall.
    + intros H.
      assert (c1 <= c')%nat.
      { destruct mx;
          [destruct (ugt (fst res) best) | destruct (ult (fst res) best)];
          apply IH in H; apply H. }
      split; intros; lia.
    + intros H. inversion H; subst. split; intros; lia.
Qed.

Lemma minimax_clock (depth : nat) :
  forall game mx c r c',
    minimax self time_left depth game mx c = (r, c') -> (S c <= c')%nat.
Proof.
  induction depth as [|depth IH]; intros game mx c r c'; simpl; unfold bind;
    destruct (check_time self time_left c) as [[[] | e1] c1] eqn:Hcheck;
    apply check_time_clock in Hcheck; subst c1.
  - destruct (get_legal_moves game (active_player game));
      intros H; inversion H; lia.
  - intros H; inversion H; lia.
  - destruct (get_legal_moves game (active_player game)).
    + intros H; inversion H; lia.
    + intros H. apply minimax_for_clock in H; [lia|].
      intros g c0 r0 c0'. apply IH.
  - intros H; inversion H; lia.
Qed.

Lemma alphabeta_for_clock
    (recurse : State -> utility_value -> utility_value -> M (utility_value * Move))
    (game : State) (mx : bool) :
  (forall g a b c r c', recurse g a b c = (r, c') -> (S c <= c')%nat) ->
  forall moves alpha beta best bm c r c',
    alphabeta_for recurse game mx moves alpha beta best bm c = (r, c') ->
    (c <= c')%nat /\ (moves <> [] -> (S c <= c')%nat).
Proof.
  intros Hrec moves.
  induction moves as [|move rest IH]; intros alpha beta best bm c r c'; simpl.
  - intros H. inversion H; subst. split; [lia | congruence].
  - unfold bind.
    destruct (recurse (forecast_move game move) alpha beta c)
      as [[res | e] c1] eqn:Hcall; apply Hrec in Hcall.
    + intros H.
      assert (c1 <= c')%nat.
      { destruct mx.
        - destruct (ugt (fst res) best); [destruct (uge (fst res) beta)|];
            try (apply IH in H; apply H); inversion H; lia.
        - destruct (ult (fst res) best); [destruct (ule (fst res) alpha)|];
            try (apply IH in H; apply H); inversion H; lia. }
      split; intros; lia.
    + intros H. inversion H; subst. split; intros; lia.
Qed.

Lemma alphabeta_clock (depth : nat) :
  forall game alpha beta mx c r c',
    alphabeta self time_left depth game alpha beta mx c = (r, c') ->
    (S c <= c')%nat.
Proof.
  induction depth as [|depth IH]; intros game alpha beta mx c r c'; simpl;
    unfold bind;
    destruct (check_time self time_left c) as [[[] | e1] c1] eqn:Hcheck;
    apply check_time_clock in Hcheck; subst c1.
  - destruct (get_legal_moves game (active_player game));
      intros H; inversion H; lia.
  - intros H; inversion H; lia.
  - destruct (get_legal_moves game (active_player game)).
    + intros H; inversion H; lia.
    + intros H. apply alphabeta_for_clock in H; [lia|].
      intros g a b c0 r0 c0'. apply IH.
  - intros H; inversion H; lia.
Qed.

(** Once the entry check has passed, an exception can only come from a
    deeper node, after a further reading. *)

Lemma minimax_passes_entry (depth : nat) (game : State) (mx : bool)
    (clk : nat) (e : exn) :
  (TIMER_THRESHOLD self <= time_left clk)%Q ->
  minimax self time_left depth game mx clk <> (Raise e, S clk).
Proof.
  intros Hpass.
  destruct depth; simpl; unfold bind;
    rewrite check_time_at_or_above by assumption;
    destruct (get_legal_moves game (active_player game)) eqn:E;
    try discriminate.
  intros H. apply minimax_for_clock in H.
  - destruct H as [_ H]. assert (S (S clk) <= S clk)%nat by (apply H; discriminate).
    lia.
  - intros g c r c'. apply minimax_clock.
Qed.

Lemma alphabeta_passes_entry (depth : nat) (game : State)
    (alpha beta : utility_value) (mx : bool) (clk : nat) (e : exn) :
  (TIMER_THRESHOLD self <= time_left clk)%Q ->
  alphabeta self time_left depth game alpha beta mx clk <> (Raise e, S clk).
Proof.
  intros Hpass.
  destruct depth; simpl; unfold bind;
    rewrite check_time_at_or_above by assumption;
    destruct (get_legal_moves game (active_player game)) eqn:E;
    try discriminate.
  intros H. apply alphabeta_for_clock in H.
  - destruct H as [_ H]. assert (S (S clk) <= S clk)%nat by (apply H; discriminate).
    lia.
  - intros g a b c r c'. apply alphabeta_clock.
Qed.

End Clock.

(** The same for the search of the competition agent, in which a cutoff
    node calls [custom_score]: what the heuristic raises leaves the node
    with only the reading at its entry taken. *)

Lemma competition_check_time_clock
    (self : Competition.CustomPlayer) (time_left : Oracle) (clk : nat)
    (r : outcome unit) (clk' : nat) :
  Competition.check_time self time_left clk = (r, clk') -> clk' = S clk.
Proof.
  unfold Competition.check_time.
  destruct (Qltb (time_left clk) (Competition.TIMER_THRESHOLD self));
    intros H; inversion H; reflexivity.
Qed.

Lemma competition_call_clock {A : Type} (x : Scoring.answer A)
    (c : nat) (r : outcome A) (c' : nat) :
  Competition.call x c = (r, c') -> c' = c.
Proof.
  destruct x; simpl; intros H; inversion H; reflexivity.
Qed.

Section CompetitionClock.

Context {State : Type} {B : Board State} {G : Scoring.Arena State}.
Variable self : Competition.CustomPlayer.
Variable time_left : Oracle.

Lemma competition_alphabeta_aborts_below
    (depth : nat) (game : State) (alpha beta : Scoring.pyfloat)
    (maximizing_player : bool) (clk : nat) :
  (time_left clk < Competition.TIMER_THRESHOLD self)%Q ->
  Competition.alphabeta self time_left depth game alpha beta maximizing_player clk =
    (Raise Timeout, S clk).
Proof.
  intros Hlt. destruct depth; simpl; unfold bind;
    now rewrite competition_check_time_below.
Qed.

Lemma competition_alphabeta_for_clock
    (recurse : State -> Scoring.pyfloat -> Scoring.pyfloat ->
               M (Scoring.pyfloat * Move))
    (game : State) (mx : bool) :
  (forall g a b c r c', recurse g a b c = (r, c') -> (S c <= c')%nat) ->
  forall moves alpha beta best bm c r c',
    Competition.alphabeta_for recurse game mx moves alpha beta best bm c = (r, c') ->
    (c <= c')%nat /\ (moves <> [] -> (S c <= c')%nat).
Proof.
  intros Hrec moves.
  induction moves as [|move rest IH]; intros alpha beta best bm c r c'; simpl.
  - intros H. inversion H; subst. split; [lia | congruence].
  - unfold bind.
    destruct (recurse (forecast_move game move) alpha beta c)
      as [[res | e] c1] eqn:Hcall; apply Hrec in Hcall.
    + intros H.
      assert (c1 <= c')%nat.
      { destruct mx.
        - destruct (Competition.fgt (fst res) best);
            [destruct (Competition.fge (fst res) beta)|];
            try (apply IH in H; apply H); inversion H; lia.
        - destruct (Competition.flt (fst res) best);
            [destruct (Competition.fle (fst res) alpha)|];
            try (apply IH in H; apply H); inversion H; lia. }
      split; intros; lia.
    + intros H. inversion H; subst. split; intros; lia.
Qed.

Lemma competition_alphabeta_clock (depth : nat) :
  forall game alpha beta mx c r c',
    Competition.alphabeta self time_left depth game alpha beta mx c = (r, c') ->
    (S c <= c')%nat.
Proof.
  induction depth as [|depth IH]; intros game alpha beta mx c r c'; simpl;
    unfold bind;
    destruct (Competition.check_time self time_left c) as [[[] | e1] c1] eqn:Hcheck;
    apply competition_check_time_clock in Hcheck; subst c1.
  - destruct (get_legal_moves game (active_player game)).
    + intros H; inversion H; lia.
    + destruct (Competition.call _ (S c)) as [[s | e] c1] eqn:Hcall;
        apply competition_call_clock in Hcall; intros H; inversion H; lia.
  - intros H; inversion H; lia.
  - destruct (get_legal_moves game (active_player game)).
    + intros H; inversion H; lia.
    + intros H. apply competition_alphabeta_for_clock in H; [lia|].
      intros g a b c0 r0 c0'. apply IH.
  - intros H; inversion H; lia.
Qed.

Lemma competition_alphabeta_passes_entry (depth : nat) (game : State)
    (alpha beta : Scoring.pyfloat) (mx : bool) (clk : nat) (e : exn) :
  (Competition.TIMER_THRESHOLD self <= time_left clk)%Q ->
  (forall f, e <> HeuristicError f) ->
  Competition.alphabeta self time_left depth game alpha beta mx clk <>
    (Raise e, S clk).
Proof.
  intros Hpass Hother.
  destruct depth; simpl; unfold bind;
    rewrite competition_check_time_at_or_above by assumption;
    destruct (get_legal_moves game (active_player game)) eqn:E;
    try discriminate.
  - unfold Competition.call.
    destruct (Competition.score game _) as [s | f]; simpl.
    + discriminate.
    + intros H. inversion H. eapply Hother; eauto.
  - intros H. apply competition_alphabeta_for_clock in H.
    + destruct H as [_ H].
      assert (S (S clk) <= S clk)%nat by (apply H; discriminate). lia.
    + intros g a b c r c'. apply competition_alphabeta_clock.
Qed.

End CompetitionClock.

(** C7, as the code has it.  Every call of [minimax] and of [alphabeta], in
    the project agent and in the competition agent, first reads the oracle
    once and compares the reading with the threshold.  When the reading is
    strictly below the threshold the node raises [Timeout] at once: nothing
    but that one reading has happened, whatever the board, the depth and
    the bounds.  When the reading is at the threshold or above, the node
    does not abort on entry: no exception comes out of it with only that
    reading taken, except, in the competition agent, one that its
    heuristic raises at a cutoff node. *)
Theorem node_entry_aborts_below_threshold
    {State : Type} {B : Board State} {G : Scoring.Arena State}
    (self : CustomPlayer State) (rival : Competition.CustomPlayer)
    (time_left : Oracle) (depth : nat) (game : State)
    (alpha beta : utility_value) (low high : Scoring.pyfloat)
    (maximizing_player : bool) (clk : nat) :
  ((time_left clk < TIMER_THRESHOLD self)%Q ->
   minimax self time_left depth game maximizing_player clk =
     (Raise Timeout, S clk) /\
   alphabeta self time_left depth game alpha beta maximizing_player clk =
     (Raise Timeout, S clk)) /\
  ((TIMER_THRESHOLD self <= time_left clk)%Q ->
   forall e,
     minimax self time_left depth game maximizing_player clk <>
       (Raise e, S clk) /\
     alphabeta self time_left depth game alpha beta maximizing_player clk <>
       (Raise e, S clk)) /\
  ((time_left clk < Competition.TIMER_THRESHOLD rival)%Q ->
   Competition.alphabeta rival time_left depth game low high
     maximizing_player clk = (Raise Timeout, S clk)) /\
  ((Competition.TIMER_THRESHOLD rival <= time_left clk)%Q ->
   forall e,
     (forall f, e <> HeuristicError f) ->
     Competition.alphabeta rival time_left depth game low high
       maximizing_player clk <> (Raise e, S clk)).
Proof.
  split; [|split; [|split]].
  - intros Hlt. split.
    + now apply minimax_aborts_below.
    + now apply alphabeta_aborts_below.
  - intros Hle e. split.
    + now apply minimax_passes_entry.
    + now apply alphabeta_passes_entry.
  - intros Hlt. now apply competition_alphabeta_aborts_below.
  - intros Hle e Hother. now apply competition_alphabeta_passes_entry.
Qed.

Lemma node_entry_aborts_below_threshold_witness :
  (minimax (fixed_player 2 "minimax") expired 2 open_position true 0%nat =
     (Raise Timeout, 1%nat) /\
   alphabeta (fixed_player 2 "minimax") expired 2 open_position
     NegInf PosInf true 0%nat = (Raise Timeout, 1%nat)) /\
  Competition.alphabeta competition_player expired 2 open_position
    Competition.neg_inf Competition.pos_inf true 0%nat = (Raise Timeout, 1%nat) /\
  (forall e,
     minimax (fixed_player 2 "minimax") on_threshold 2 open_position true 0%nat <>
       (Raise e, 1%nat) /\
     alphabeta (fixed_player 2 "minimax") on_threshold 2 open_position
       NegInf PosInf true 0%nat <> (Raise e, 1%nat)) /\
  (forall e,
     (forall f, e <> HeuristicError f) ->
     Competition.alphabeta competition_player ample 2 open_position
       Competition.neg_inf Competition.pos_inf true 0%nat <> (Raise e, 1%nat)).
Proof.
  destruct (node_entry_aborts_below_threshold
              (fixed_player 2 "minimax") competition_player expired
              2 open_position NegInf PosInf
              Competition.neg_inf Competition.pos_inf true 0%nat)
    as (Hbelow & _ & Hrival & _).
  destruct (node_entry_aborts_below_threshold
              (fixed_player 2 "minimax") competition_player on_threshold
              2 open_position NegInf PosInf
              Competition.neg_inf Competition.pos_inf true 0%nat)
    as (_ & Hpass & _ & _).
  destruct (node_entry_aborts_below_threshold
              (fixed_player 2 "minimax") competition_player ample
              2 open_position NegInf PosInf
              Competition.neg_inf Competition.pos_inf true 0%nat)
    as (_ & _ & _ & Hrival_pass).
  split; [|split; [|split]].
  - apply Hbelow. unfold expired, Qlt. simpl. lia.
  - apply Hrival. unfold expired, Qlt. simpl. lia.
  - apply Hpass. unfold on_threshold, Qle. simpl. lia.
  - apply Hrival_pass. unfold ample, Qle. simpl. lia.
Defined.

(** C7 as stated fails at a reading equal to the threshold: the node does
    not abort, it searches on and returns. *)
Lemma reading_on_threshold_does_not_abort :
  (on_threshold 0%nat <= TIMER_THRESHOLD (fixed_player 2 "minimax"))%Q /\
  minimax (fixed_player 2 "minimax") on_threshold 2 open_position true 0%nat =
    (Return (Fin 1, (2, 1)), 7%nat) /\
  alphabeta (fixed_player 2 "minimax") on_threshold 2 open_position
    NegInf PosInf true 0%nat <> (Raise Timeout, 1%nat).
Proof.
  split; [|split].
  - unfold on_threshold, Qle. simpl. lia.
  - vm_compute. reflexivity.
  - vm_compute. discriminate.
Qed.

(** ** Terminal and cutoff nodes *)

Lemma terminal_node
    {State : Type} {B : Board State}
    (self : CustomPlayer State) (time_left : Oracle)
    (depth : nat) (game : State)
    (alpha beta : utility_value) (maximizing_player : bool) (clk : nat) :
  get_legal_moves game (active_player game) = [] ->
  (TIMER_THRESHOLD self <= time_left clk)%Q ->
  let current_player :=
    if maximizing_player then active_player game else inactive_player game in
  minimax self time_left depth game maximizing_player clk =
    (Return (utility game current_player, no_legal_moves), S clk) /\
  alphabeta self time_left depth game alpha beta maximizing_player clk =
    (Return (utility game current_player, no_legal_moves), S clk).
Proof.
  intros Hnone Hpass.
  split; destruct depth; simpl; unfold bind;
    rewrite check_time_at_or_above by assumption;
    rewrite Hnone; reflexivity.
Qed.

(** C5, as the code has it.  On a state whose active player has no legal
    move, and once the deadline check at the entry of the node has passed,
    [minimax] and [alphabeta] return [(utility(current_player), (-1, -1))]
    at every depth and for all bounds, [current_player] being the active
    player in a maximizing layer and the inactive player in a minimizing
    one; with the board's [utility] as the specification describes it, that
    utility is [+inf] or [-inf]. *)
Theorem terminal_node_returns_utility_and_sentinel
    {State : Type} (rules : Board State)
    (self : CustomPlayer State) (time_left : Oracle)
    (depth : nat) (game : State)
    (alpha beta : utility_value) (maximizing_player : bool) (clk : nat) :
  @get_legal_moves _ (with_spec_utility rules) game
    (@active_player _ (with_spec_utility rules) game) = [] ->
  (TIMER_THRESHOLD self <= time_left clk)%Q ->
  let current_player :=
    if maximizing_player
    then @active_player _ (with_spec_utility rules) game
    else @inactive_player _ (with_spec_utility rules) game in
  let u := @utility _ (with_spec_utility rules) game current_player in
  @minimax _ (with_spec_utility rules) self time_left depth game
    maximizing_player clk = (Return (u, no_legal_moves), S clk) /\
  @alphabeta _ (with_spec_utility rules) self time_left depth game
    alpha beta maximizing_player clk = (Return (u, no_legal_moves), S clk) /\
  (u = PosInf \/ u = NegInf).
Proof.
  intros Hnone Hpass current_player u.
  destruct (@terminal_node _ (with_spec_utility rules) self time_left depth game
              alpha beta maximizing_player clk Hnone Hpass) as [Hmm Hab].
  split; [exact Hmm | split; [exact Hab |]].
  subst u. simpl in *. unfold spec_utility. rewrite Hnone.
  destruct (player_eqb current_player (active_player game)); auto.
Qed.

Lemma terminal_node_returns_utility_and_sentinel_witness :
  @minimax _ (with_spec_utility tree_rules) (fixed_player 2 "minimax") ample
    2 stuck true 0%nat = (Return (NegInf, no_legal_moves), 1%nat) /\
  @alphabeta _ (with_spec_utility tree_rules) (fixed_player 2 "minimax") ample
    2 stuck (Fin 3) (Fin 4) true 0%nat = (Return (NegInf, no_legal_moves), 1%nat) /\
  (NegInf = PosInf \/ NegInf = NegInf).
Proof.
  apply (terminal_node_returns_utility_and_sentinel tree_rules
           (fixed_player 2 "minimax") ample 2 stuck (Fin 3) (Fin 4) true 0%nat).
  - reflexivity.
  - unfold ample, Qle. simpl. lia.
Defined.

(** C5 as stated fails when the oracle is below the threshold at the entry
    of the node: the terminal state is never looked at and [Timeout] is
    raised instead of a pair. *)
Lemma terminal_node_with_expired_oracle_raises :
  get_legal_moves stuck (active_player stuck) = [] /\
  minimax (fixed_player 2 "minimax") expired 2 stuck true 0%nat =
    (Raise Timeout, 1%nat) /\
  alphabeta (fixed_player 2 "minimax") expired 2 stuck NegInf PosInf true 0%nat =
    (Raise Timeout, 1%nat).
Proof. repeat split. Qed.

(** C6, as the code has it.  On a state with a legal move, at depth 0 and
    once the deadline check at the entry of the node has passed, [minimax]
    and [alphabeta] return [(score(state, current_player), first legal
    move)]. *)
Theorem cutoff_node_returns_score_and_first_move
    {State : Type} {B : Board State}
    (self : CustomPlayer State) (time_left : Oracle) (game : State)
    (alpha beta : utility_value) (maximizing_player : bool) (clk : nat)
    (first : Move) (others : list Move) :
  get_legal_moves game (active_player game) = first :: others ->
  (TIMER_THRESHOLD self <= time_left clk)%Q ->
  let current_player :=
    if maximizing_player then active_player game else inactive_player game in
  minimax self time_left 0 game maximizing_player clk =
    (Return (score self game current_player, first), S clk) /\
  alphabeta self time_left 0 game alpha beta maximizing_player clk =
    (Return (score self game current_player, first), S clk).
Proof.
  intros Hmoves Hpass.
  split; simpl; unfold bind;
    rewrite check_time_at_or_above by assumption;
    rewrite Hmoves; reflexivity.
Qed.

Lemma cutoff_node_returns_score_and_first_move_witness :
  minimax (fixed_player 0 "minimax") ample 0 open_position false 0%nat =
    (Return (Fin 0, (0, 1)), 1%nat) /\
  alphabeta (fixed_player 0 "minimax") ample 0 open_position
    NegInf PosInf false 0%nat = (Return (Fin 0, (0, 1)), 1%nat).
Proof.
  assert (Hpass : (TIMER_THRESHOLD (fixed_player 0 "minimax") <= ample 0%nat)%Q)
    by (unfold ample, Qle; simpl; lia).
  exact (cutoff_node_returns_score_and_first_move
           (fixed_player 0 "minimax") ample open_position NegInf PosInf false
           0%nat (0, 1) [(2, 1)] eq_refl Hpass).
Defined.

(** C6 as stated fails when the oracle is below the threshold at the entry
    of the node: [Timeout] is raised instead of a pair. *)
Lemma cutoff_node_with_expired_oracle_raises :
  get_legal_moves open_position (active_player open_position) = [(0, 1); (2, 1)] /\
  minimax (fixed_player 0 "minimax") expired 0 open_position true 0%nat =
    (Raise Timeout, 1%nat) /\
  alphabeta (fixed_player 0 "minimax") expired 0 open_position
    NegInf PosInf true 0%nat = (Raise Timeout, 1%nat).
Proof. repeat split. Qed.

(** ** [get_move] *)

(** C8. When the active player has a legal move and the configured method
    is neither ['minimax'] nor ['alphabeta'], [get_move] raises
    [ValueError('Invalid method')] to its caller, in iterative mode (on the
    first iteration of the loop) as in fixed-depth mode, and before any
    reading of the oracle. *)
Theorem invalid_method_raises_value_error
    {State : Type} {B : Board State}
    (self : CustomPlayer State) (time_left : Oracle)
    (fuel : nat) (game : State) (legal_moves : list Move) :
  legal_moves <> [] ->
  method self <> "minimax"%string ->
  method self <> "alphabeta"%string ->
  get_move self time_left (S fuel) game legal_moves =
    Some (Raise (ValueError "Invalid method"), 0%nat).
Proof.
  intros Hmoves Hmm Hab.
  destruct legal_moves as [|first others]; [congruence|].
  apply String.eqb_neq in Hmm, Hab.
  unfold get_move, fixed_depth_search. cbn [deepening_loop].
  unfold search_by_method. rewrite Hmm, Hab.
  destruct (iterative self); reflexivity.
Qed.

Lemma invalid_method_raises_value_error_witness :
  get_move (deepening_player "negamax") ample 1 open_position [(0, 1); (2, 1)] =
    Some (Raise (ValueError "Invalid method"), 0%nat) /\
  get_move (fixed_player 3 "negamax") ample 1 open_position [(0, 1); (2, 1)] =
    Some (Raise (ValueError "Invalid method"), 0%nat).
Proof.
  split.
  - apply (invalid_method_raises_value_error
             (deepening_player "negamax") ample 0 open_position [(0, 1); (2, 1)]);
      discriminate.
  - apply (invalid_method_raises_value_error
             (fixed_player 3 "negamax") ample 0 open_position [(0, 1); (2, 1)]);
      discriminate.
Defined.

(** A [Timeout] coming out of the first search finds [best_move] unbound. *)
Lemma timeout_in_first_search_escapes
    {State : Type} {B : Board State}
    (self : CustomPlayer State) (time_left : Oracle)
    (fuel : nat) (game : State) (legal_moves : list Move) (clk : nat) :
  legal_moves <> [] ->
  search_by_method self time_left game
    (if iterative self then 1%nat else search_depth self) 0%nat =
    (Raise Timeout, clk) ->
  get_move self time_left (S fuel) game legal_moves =
    Some (Raise (UnboundLocalError "best_move"), clk).
Proof.
  intros Hmoves Hsearch.
  destruct legal_moves as [|first others]; [congruence|].
  unfold get_move, fixed_depth_search. cbn [deepening_loop].
  destruct (iterative self); rewrite Hsearch; reflexivity.
Qed.

(** C3 fails on the code.  When the active player has a legal move, the
    method is one of the two searches and the very first reading of the
    oracle is below the threshold, the first search raises [Timeout] before
    [best_move] has ever been bound, and the handler's [return best_move]
    raises [UnboundLocalError]: [get_move] returns neither a fallback move
    nor the sentinel, an exception escapes to its caller. *)
Theorem first_reading_below_threshold_escapes
    {State : Type} {B : Board State}
    (self : CustomPlayer State) (time_left : Oracle)
    (fuel : nat) (game : State) (legal_moves : list Move) :
  legal_moves <> [] ->
  method self = "minimax"%string \/ method self = "alphabeta"%string ->
  (time_left 0%nat < TIMER_THRESHOLD self)%Q ->
  get_move self time_left (S fuel) game legal_moves =
    Some (Raise (UnboundLocalError "best_move"), 1%nat).
Proof.
  intros Hmoves Hmethod Hlow.
  apply timeout_in_first_search_escapes; [assumption|].
  unfold search_by_method.
  destruct Hmethod as [-> | ->]; simpl;
    [apply minimax_aborts_below | apply alphabeta_aborts_below]; exact Hlow.
Qed.

Lemma first_reading_below_threshold_escapes_witness :
  get_move (deepening_player "minimax") expired 1 open_position [(0, 1); (2, 1)] =
    Some (Raise (UnboundLocalError "best_move"), 1%nat).
Proof.
  apply (first_reading_below_threshold_escapes
           (deepening_player "minimax") expired 0 open_position [(0, 1); (2, 1)]).
  - discriminate.
  - left. reflexivity.
  - unfold expired, Qlt. simpl. lia.
Defined.

(** C2 fails on the code.  On [lost_in_two] the active player has the legal
    move [(1, 2)], yet [get_move] returns the sentinel [(-1, -1)]: at fixed
    depth 2 with either method, and in iterative mode when the second depth
    is the last one completed. *)
Theorem get_move_returns_sentinel_despite_legal_move :
  get_legal_moves lost_in_two (active_player lost_in_two) = [(1, 2)] /\
  get_move (fixed_player 2 "minimax") ample 0 lost_in_two [(1, 2)] =
    Some (Return no_legal_moves, 4%nat) /\
  get_move (fixed_player 2 "alphabeta") ample 0 lost_in_two [(1, 2)] =
    Some (Return no_legal_moves, 3%nat) /\
  get_move (deepening_player "minimax") (ample_then_expired 7) 2
    lost_in_two [(1, 2)] = Some (Return no_legal_moves, 8%nat).
Proof. repeat split. Qed.

(** C4 fails on the code.  At the root of [lost_in_two], a maximizing node
    with the legal move [(1, 2)] searched at depth 2, the only candidate is
    worth [-inf], which is not strictly greater than the initial [-inf]: it
    does not replace the initial best, and both searches return the move
    [(-1, -1)], which is not in the node's legal-move list. *)
Theorem first_candidate_worth_initial_best_is_not_kept :
  get_legal_moves lost_in_two (active_player lost_in_two) = [(1, 2)] /\
  minimax (fixed_player 2 "minimax") ample 1 (forecast_move lost_in_two (1, 2))
    false 0%nat = (Return (NegInf, (2, 0)), 3%nat) /\
  minimax (fixed_player 2 "minimax") ample 2 lost_in_two true 0%nat =
    (Return (NegInf, no_legal_moves), 4%nat) /\
  alphabeta (fixed_player 2 "minimax") ample 2 lost_in_two NegInf PosInf true 0%nat =
    (Return (NegInf, no_legal_moves), 3%nat) /\
  ~ In no_legal_moves (get_legal_moves lost_in_two (active_player lost_in_two)).
Proof.
  repeat split.
  simpl. intros [H | []]. discriminate H.
Qed.

(** C10. In the competition agent [best_move] is the sentinel before the
    loop starts, so when the active player has a legal move and [Timeout] is
    raised anywhere inside the search of the first depth, [get_move]
    returns the sentinel [(-1, -1)]: it neither raises nor returns a
    partial cutoff move. *)
Theorem competition_timeout_in_first_depth_returns_sentinel
    {State : Type} {B : Board State} {G : Scoring.Arena State}
    (self : Competition.CustomPlayer) (time_left : Oracle)
    (fuel drawn_depth : nat) (game : State) (clk : nat) :
  get_legal_moves game (active_player game) <> [] ->
  Competition.alphabeta self time_left (S drawn_depth) game
    Competition.neg_inf Competition.pos_inf true 0%nat = (Raise Timeout, clk) ->
  Competition.get_move self time_left (S fuel) drawn_depth game =
    Some (Return no_legal_moves, clk).
Proof.
  intros Hmoves Hsearch.
  unfold Competition.get_move.
  destruct (get_legal_moves game (active_player game)) as [|first others];
    [congruence|].
  cbn [Competition.deepening_loop]. rewrite Hsearch. reflexivity.
Qed.

Lemma competition_timeout_in_first_depth_returns_sentinel_witness :
  get_legal_moves open_position (active_player open_position) <> [] /\
  Competition.get_move competition_player (ample_then_expired 3) 1 9 open_position =
    Some (Return no_legal_moves, 4%nat).
Proof.
  split.
  - discriminate.
  - apply (competition_timeout_in_first_depth_returns_sentinel
             competition_player (ample_then_expired 3) 0 9 open_position 4%nat).
    + discriminate.
    + vm_compute. reflexivity.
Defined.

(** ** How the deepening loop can end *)

Section LoopExits.

Context {State : Type} {B : Board State}.
Variable self : CustomPlayer State.
Variable time_left : Oracle.

Lemma Qltb_lt (x y : Q) : Qltb x y = true -> (x < y)%Q.
Proof.
  unfold Qltb. intros H. apply negb_true_iff in H.
  apply Qnot_le_lt. intros Hle. apply Qle_bool_iff in Hle. congruence.
Qed.

Lemma check_time_raise (clk : nat) (e : exn) (clk' : nat) :
  check_time self time_left clk = (Raise e, clk') -> timed_out self time_left e clk'.
Proof.
  unfold check_time.
  destruct (Qltb (time_left clk) (TIMER_THRESHOLD self)) eqn:E; intros H;
    inversion H; subst.
  split; [reflexivity|]. exists clk. split; [reflexivity|].
  now apply Qltb_lt.
Qed.

Lemma minimax_for_raise
    (recurse : State -> M (utility_value * Move)) (game : State) (mx : bool) :
  (forall g c e c', recurse g c = (Raise e, c') -> timed_out self time_left e c') ->
  forall moves best bm c e c',
    minimax_for recurse game mx moves best bm c = (Raise e, c') ->
    timed_out self time_left e c'.
Proof.
  intros Hrec moves.
  induction moves as [|move rest IH]; intros best bm c e c'; simpl.
  - discriminate.
  - unfold bind.
    destruct (recurse (forecast_move game move) c) as [[r | e1] c1] eqn:Hcall.
    + destruct mx; [destruct (ugt (fst r) best) | destruct (ult (fst r) best)];
        apply IH.
    + intros H. inversion H; subst. eapply Hrec; eauto.
Qed.

Lemma minimax_raise (depth : nat) :
  forall game mx c e c',
    minimax self time_left depth game mx c = (Raise e, c') -> timed_out self time_left e c'.
Proof.
  induction depth as [|depth IH]; intros game mx c e c'; simpl; unfold bind;
    destruct (check_time self time_left c) as [[[] | e1] c1] eqn:Hcheck.
  - destruct (get_legal_moves game (active_player game)); discriminate.
  - intros H. inversion H; subst. exact (check_time_raise _ _ _ Hcheck).
  - destruct (get_legal_moves game (active_player game)); [discriminate|].
    apply minimax_for_raise. intros g c0 e0 c0'. apply IH.
  - intros H. inversion H; subst. exact (check_time_raise _ _ _ Hcheck).
Qed.

Lemma alphabeta_for_raise
    (recurse : State -> utility_value -> utility_value -> M (utility_value * Move))
    (game : State) (mx : bool) :
  (forall g a b c e c', recurse g a b c = (Raise e, c') -> timed_out self time_left e c') ->
  forall moves alpha beta best bm c e c',
    alphabeta_for recurse game mx moves alpha beta best bm c = (Raise e, c') ->
    timed_out self time_left e c'.
Proof.
  intros Hrec moves.
  induction moves as [|move rest IH]; intros alpha beta best bm c e c'; simpl.
  - discriminate.
  - unfold bind.
    destruct (recurse (forecast_move game move) alpha beta c)
      as [[r | e1] c1] eqn:Hcall.
    + destruct mx.
      * destruct (ugt (fst r) best); [destruct (uge (fst r) beta)|];
          try discriminate; apply IH.
      * destruct (ult (fst r) best); [destruct (ule (fst r) alpha)|];
          try discriminate; apply IH.
    + intros H. inversion H; subst. eapply Hrec; eauto.
Qed.

Lemma alphabeta_raise (depth : nat) :
  forall game alpha beta mx c e c',
    alphabeta self time_left depth game alpha beta mx c = (Raise e, c') ->
    timed_out self time_left e c'.
Proof.
  induction depth as [|depth IH]; intros game alpha beta mx c e c'; simpl;
    unfold bind;
    destruct (check_time self time_left c) as [[[] | e1] c1] eqn:Hcheck.
  - destruct (get_legal_moves game (active_player game)); discriminate.
  - intros H. inversion H; subst. exact (check_time_raise _ _ _ Hcheck).
  - destruct (get_legal_moves game (active_player game)); [discriminate|].
    apply alphabeta_for_raise. intros g a b c0 e0 c0'. apply IH.
  - intros H. inversion H; subst. exact (check_time_raise _ _ _ Hcheck).
Qed.

Lemma search_by_method_raise (game : State) (depth c : nat) (e : exn) (c' : nat) :
  search_by_method self time_left game depth c = (Raise e, c') ->
  (e = ValueError "Invalid method" /\ invalid_method self) \/ timed_out self time_left e c'.
Proof.
  unfold search_by_method.
  destruct (String.eqb (method self) "minimax") eqn:E1.
  - intros H. right. eapply minimax_raise; eauto.
  - destruct (String.eqb (method self) "alphabeta") eqn:E2.
    + intros H. right. eapply alphabeta_raise; eauto.
    + intros H. inversion H; subst. left.
      apply String.eqb_neq in E1, E2. repeat split; assumption.
Qed.

Lemma search_by_method_timeout_clock (game : State) (depth c c' : nat) :
  search_by_method self time_left game depth c = (Raise Timeout, c') ->
  (S c <= c')%nat.
Proof.
  unfold search_by_method.
  destruct (String.eqb (method self) "minimax").
  - apply minimax_clock.
  - destruct (String.eqb (method self) "alphabeta").
    + apply alphabeta_clock.
    + discriminate.
Qed.

Lemma invalid_method_never_returns (game : State) (depth c : nat) :
  invalid_method self ->
  search_by_method self time_left game depth c =
    (Raise (ValueError "Invalid method"), c).
Proof.
  intros [Hmm Hab]. apply String.eqb_neq in Hmm, Hab.
  unfold search_by_method. rewrite Hmm, Hab. reflexivity.
Qed.

Lemma invalid_method_not_deepened (game : State) (n c : nat) (bm : option Move) :
  invalid_method self ->
  deepened self time_left game n c bm -> n = 0%nat /\ c = 0%nat /\ bm = None.
Proof.
  intros Hinv Hd. destruct Hd as [|n c bm v m c' _ Hsearch _].
  - repeat split.
  - rewrite invalid_method_never_returns in Hsearch by assumption. discriminate.
Qed.

(** The loop followed from the place it has reached. *)
Lemma deepening_loop_from (game : State) (n c : nat) (bm : option Move) :
  deepened self time_left game n c bm ->
  forall fuel,
    deepening_loop self time_left (n + fuel) game 0 None 0 =
    deepening_loop self time_left fuel game n bm c.
Proof.
  intros Hd. induction Hd as [|n c bm v m c' Hd IH Hsearch Hgt]; intros fuel.
  - reflexivity.
  - replace (S n + fuel)%nat with (n + S fuel)%nat by lia.
    rewrite IH. cbn [deepening_loop]. rewrite Hsearch. cbn [snd].
    destruct (Qle_bool (time_left c') (1 # 1000)) eqn:Hlast; [|reflexivity].
    apply Qle_bool_iff in Hlast. exfalso. exact (Qlt_not_le _ _ Hgt Hlast).
Qed.

Lemma deepening_loop_still_running (game : State) (n c : nat) (bm : option Move) :
  deepened self time_left game n c bm ->
  forall fuel, (fuel <= n)%nat ->
    deepening_loop self time_left fuel game 0 None 0 = None.
Proof.
  intros Hd. induction Hd as [|n c bm v m c' Hd IH Hsearch Hgt]; intros fuel Hfuel.
  - replace fuel with 0%nat by lia. reflexivity.
  - destruct (Nat.eq_dec fuel (S n)) as [-> | Hne]; [|apply IH; lia].
    replace (S n) with (n + 1)%nat by lia.
    rewrite (deepening_loop_from game n c bm Hd 1).
    cbn [deepening_loop]. rewrite Hsearch. cbn [snd].
    destruct (Qle_bool (time_left c') (1 # 1000)) eqn:Hlast; [|reflexivity].
    apply Qle_bool_iff in Hlast. exfalso. exact (Qlt_not_le _ _ Hgt Hlast).
Qed.

(** An end of the loop, with the place at which it happened. *)
Lemma deepening_loop_exit (game : State) (fuel : nat) :
  forall n c bm r bm' c',
    deepened self time_left game n c bm ->
    deepening_loop self time_left fuel game n bm c = Some (r, bm', c') ->
    exists n0 c0 bm0,
      (n <= n0 < n + fuel)%nat /\
      deepened self time_left game n0 c0 bm0 /\
      ((exists v m c1,
          search_by_method self time_left game (S n0) c0 = (Return (v, m), c1) /\
          (time_left c1 <= 1 # 1000)%Q /\
          c' = S c1 /\ r = Return m /\ bm' = Some m) \/
       (exists e,
          search_by_method self time_left game (S n0) c0 = (Raise e, c') /\
          r = Raise e /\ bm' = bm0)).
Proof.
  induction fuel as [|fuel IH]; intros n c bm r bm' c' Hd;
    cbn [deepening_loop].
  - discriminate.
  - destruct (search_by_method self time_left game (S n) c)
      as [[[v m] | e] c1] eqn:Hsearch.
    + cbn [snd].
      destruct (Qle_bool (time_left c1) (1 # 1000)) eqn:Hlast.
      * intros H. inversion H; subst.
        exists n, c, bm. split; [lia|]. split; [exact Hd|]. left.
        exists v, m, c1. repeat split; auto. now apply Qle_bool_iff.
      * intros H.
        assert (Hgt : (1 # 1000 < time_left c1)%Q).
        { apply Qnot_le_lt. intros Hle. apply Qle_bool_iff in Hle. congruence. }
        apply IH in H; [|eapply deepened_step; eauto].
        destruct H as (n0 & c0 & bm0 & Hn0 & Hd0 & Hend).
        exists n0, c0, bm0. split; [lia|]. split; assumption.
    + intros H. inversion H; subst.
      exists n, c, bm'. split; [lia|]. split; [exact Hd|]. right.
      exists e. repeat split; auto.
Qed.

Hypothesis always_ample :
  forall k, (TIMER_THRESHOLD self <= time_left k)%Q /\ (1 # 1000 < time_left k)%Q.

Lemma search_by_method_returns (game : State) (depth c : nat) :
  method self = "minimax"%string \/ method self = "alphabeta"%string ->
  exists res c', search_by_method self time_left game depth c = (Return res, c').
Proof.
  assert (Hnever : forall k, (TIMER_THRESHOLD self <= time_left k)%Q)
    by (intro k; apply always_ample).
  unfold search_by_method. intros [-> | ->]; simpl.
  - destruct (minimax_value_returned self time_left Hnever depth game true c)
      as (mv & c' & ->). eauto.
  - destruct (alphabeta_brackets_minimax self time_left Hnever depth game
                NegInf PosInf true c eq_refl) as (v & mv & c' & -> & _). eauto.
Qed.

Lemma deepening_loop_runs_on (game : State) (fuel : nat) :
  method self = "minimax"%string \/ method self = "alphabeta"%string ->
  forall depth bm c,
    deepening_loop self time_left fuel game depth bm c = None.
Proof.
  intros Hvalid.
  induction fuel as [|fuel IH]; intros depth bm c; simpl; [reflexivity|].
  destruct (search_by_method_returns game (S depth) c Hvalid) as (res & c' & ->).
  destruct (Qle_bool (time_left c') (1 # 1000)) eqn:Hlast; [|apply IH].
  apply Qle_bool_iff in Hlast.
  destruct (always_ample c') as [_ Hgt].
  exfalso. exact (Qlt_not_le _ _ Hgt Hlast).
Qed.

End LoopExits.

(** C9, as the code has it.  In iterative mode with at least one legal
    move the loop has no depth bound and no exit on an exhausted game tree:
    it searches the depths 1, 2, 3, ... one after the other and has exactly
    three ways to end.  When [get_move] comes to an end, the loop had
    completed the depths 1 to [n], each followed by a reading above 0.001,
    and then one of these happened in its next iteration:
    - the search at depth [n + 1] returned, the reading taken right after
      it was at most 0.001, and [get_move] returns the move of that search;
    - the search at depth [n + 1] raised [Timeout] on a reading below the
      threshold taken inside it, the last reading of all, and [get_move]
      gives back the move of depth [n], or raises [UnboundLocalError] when
      no depth was completed;
    - the method is neither ['minimax'] nor ['alphabeta'], no depth was
      completed and no reading taken, and [get_move] raises [ValueError].
    Conversely, as long as the depths 1 to [n] complete with readings above
    0.001 after them, the loop is still running after [n] iterations.
    Under an oracle whose every reading is ample [get_move] never returns a
    move, and with a valid method it does not come to an end at all:
    however many iterations are followed, the loop is still running. *)
Theorem deepening_loop_ends_only_on_deadline_or_invalid_method
    {State : Type} {B : Board State}
    (self : CustomPlayer State) (time_left : Oracle)
    (game : State) (legal_moves : list Move) :
  iterative self = true ->
  legal_moves <> [] ->
  (forall fuel r clk,
     get_move self time_left fuel game legal_moves = Some (r, clk) ->
     exists n c best_move,
       (n < fuel)%nat /\
       deepened self time_left game n c best_move /\
       ((exists v m c1,
           search_by_method self time_left game (S n) c = (Return (v, m), c1) /\
           (time_left c1 <= 1 # 1000)%Q /\
           clk = S c1 /\ r = Return m) \/
        (search_by_method self time_left game (S n) c = (Raise Timeout, clk) /\
         (exists k, clk = S k /\ (c <= k)%nat /\
                    (time_left k < TIMER_THRESHOLD self)%Q) /\
         r = read_best_move best_move) \/
        (invalid_method self /\ n = 0%nat /\ clk = 0%nat /\
         r = Raise (ValueError "Invalid method")))) /\
  (forall n c best_move,
     deepened self time_left game n c best_move ->
     forall fuel, (fuel <= n)%nat ->
       get_move self time_left fuel game legal_moves = None) /\
  ((forall k, (TIMER_THRESHOLD self <= time_left k)%Q /\
              (1 # 1000 < time_left k)%Q) ->
   forall fuel,
     (forall m clk,
        get_move self time_left fuel game legal_moves <> Some (Return m, clk)) /\
     (method self = "minimax"%string \/ method self = "alphabeta"%string ->
      get_move self time_left fuel game legal_moves = None)).
Proof.
  intros Hiter Hmoves.
  destruct legal_moves as [|first others]; [congruence|].
  assert (Hexit : forall fuel r clk,
            get_move self time_left fuel game (first :: others) = Some (r, clk) ->
            exists n c best_move,
              (n < fuel)%nat /\
              deepened self time_left game n c best_move /\
              ((exists v m c1,
                  search_by_method self time_left game (S n) c =
                    (Return (v, m), c1) /\
                  (time_left c1 <= 1 # 1000)%Q /\
                  clk = S c1 /\ r = Return m) \/
               (search_by_method self time_left game (S n) c = (Raise Timeout, clk) /\
                (exists k, clk = S k /\ (c <= k)%nat /\
                           (time_left k < TIMER_THRESHOLD self)%Q) /\
                r = read_best_move best_move) \/
               (invalid_method self /\ n = 0%nat /\ clk = 0%nat /\
                r = Raise (ValueError "Invalid method")))).
  { intros fuel r clk. unfold get_move. rewrite Hiter.
    destruct (deepening_loop self time_left fuel game 0 None 0)
      as [[[r0 bm'] c']|] eqn:Hloop; [|discriminate].
    apply deepening_loop_exit in Hloop; [|constructor].
    destruct Hloop as (n & c & bm & Hn & Hd & Hend).
    destruct Hend as [(v & m & c1 & Hsearch & Hle & -> & -> & ->) |
                      (e & Hsearch & -> & ->)].
    - intros H. inversion H; subst.
      exists n, c, bm. split; [lia|]. split; [exact Hd|]. left.
      exists v, m, c1. repeat split; assumption.
    - destruct (search_by_method_raise _ _ _ _ _ _ _ Hsearch)
        as [[-> Hinv] | [-> (k & -> & Hk)]].
      + intros H. inversion H; subst.
        destruct (invalid_method_not_deepened _ _ _ _ _ _ Hinv Hd) as (-> & -> & ->).
        rewrite invalid_method_never_returns in Hsearch by assumption.
        inversion Hsearch; subst.
        exists 0%nat, 0%nat, None. split; [lia|]. split; [constructor|].
        right. right. repeat split; apply Hinv.
      + intros H. inversion H; subst.
        pose proof (search_by_method_timeout_clock _ _ _ _ _ _ Hsearch) as Hclk.
        exists n, c, bm. split; [lia|]. split; [exact Hd|].
        right. left. split; [exact Hsearch|]. split; [|reflexivity].
        exists k. repeat split; [lia | exact Hk]. }
  split; [exact Hexit|]. split.
  - intros n c bm Hd fuel Hfuel. unfold get_move. rewrite Hiter.
    now rewrite (deepening_loop_still_running self time_left game n c bm Hd fuel Hfuel).
  - intros Hample fuel. split.
    + intros m clk Hret.
      destruct (Hexit _ _ _ Hret)
        as (n & c & bm & _ & _ &
            [(v & m0 & c1 & _ & Hle & _) |
             [(_ & (k & _ & _ & Hk) & _) | (_ & _ & _ & Hr)]]).
      * destruct (Hample c1) as [_ Hgt]. exact (Qlt_not_le _ _ Hgt Hle).
      * destruct (Hample k) as [Hge _]. exact (Qlt_not_le _ _ Hk Hge).
      * discriminate.
    + intros Hvalid. unfold get_move. rewrite Hiter.
      now rewrite (deepening_loop_runs_on self time_left Hample game fuel Hvalid).
Qed.

Lemma deepening_loop_ends_only_on_deadline_or_invalid_method_witness :
  get_move (deepening_player "alphabeta") ample 6 open_position [(0, 1); (2, 1)] =
    None /\
  exists n c best_move,
    (n < 3)%nat /\
    deepened (deepening_player "alphabeta") (ample_then_expired 5)
      open_position n c best_move /\
    ((exists v m c1,
        search_by_method (deepening_player "alphabeta") (ample_then_expired 5)
          open_position (S n) c = (Return (v, m), c1) /\
        (ample_then_expired 5 c1 <= 1 # 1000)%Q /\
        6%nat = S c1 /\ Return (2, 1) = Return m) \/
     (search_by_method (deepening_player "alphabeta") (ample_then_expired 5)
        open_position (S n) c = (Raise Timeout, 6%nat) /\
      (exists k, 6%nat = S k /\ (c <= k)%nat /\
                 (ample_then_expired 5 k <
                  TIMER_THRESHOLD (deepening_player "alphabeta"))%Q) /\
      Return (2, 1) = read_best_move best_move) \/
     (invalid_method (deepening_player "alphabeta") /\ n = 0%nat /\ 6%nat = 0%nat /\
      @Return Move (2, 1) = Raise (ValueError "Invalid method"))).
Proof.
  split.
  - destruct (deepening_loop_ends_only_on_deadline_or_invalid_method
                (deepening_player "alphabeta") ample open_position
                [(0, 1); (2, 1)] eq_refl) as (_ & _ & Hruns).
    + discriminate.
    + apply Hruns.
      * intro k. unfold ample, Qle, Qlt. simpl. lia.
      * right. reflexivity.
  - destruct (deepening_loop_ends_only_on_deadline_or_invalid_method
                (deepening_player "alphabeta") (ample_then_expired 5) open_position
                [(0, 1); (2, 1)] eq_refl) as (Hexit & _ & _).
    + discriminate.
    + apply (Hexit 3%nat (Return (2, 1)) 6%nat). vm_compute. reflexivity.
Defined.

(** C9 as stated fails for an invalid method: the loop ends in its first
    iteration by raising [ValueError], although the oracle is ample; no
    reading of the oracle has been taken and no search has started. *)
Lemma deepening_loop_ends_on_invalid_method :
  iterative (deepening_player "negamax") = true /\
  (TIMER_THRESHOLD (deepening_player "negamax") <= ample 0%nat)%Q /\
  (1 # 1000 < ample 0%nat)%Q /\
  get_move (deepening_player "negamax") ample 1 open_position [(0, 1); (2, 1)] =
    Some (Raise (ValueError "Invalid method"), 0%nat).
Proof.
  repeat split.
  unfold ample, Qle. simpl. lia.
Qed.

(** * Further properties of the code *)

(** ** The move a search returns *)

Section ReturnedMove.

Context {State : Type} {B : Board State}.
Variable self : CustomPlayer State.
Variable time_left : Oracle.

Lemma minimax_for_move
    (recurse : State -> M (utility_value * Move)) (game : State) (mx : bool) :
  forall moves best bm c v m c',
    minimax_for recurse game mx moves best bm c = (Return (v, m), c') ->
    In m moves \/ m = bm.
Proof.
  induction moves as [|move rest IH]; intros best bm c v m c'; simpl.
  - intros H. inversion H. auto.
  - unfold bind.
    destruct (recurse (forecast_move game move) c) as [[r | e] c1];
      [|discriminate].
    destruct mx; [destruct (ugt (fst r) best) | destruct (ult (fst r) best)];
      intros H; apply IH in H; destruct H as [H | H]; auto.
Qed.

Lemma alphabeta_for_move
    (recurse : State -> utility_value -> utility_value -> M (utility_value * Move))
    (game : State) (mx : bool) :
  forall moves alpha beta best bm c v m c',
    alphabeta_for recurse game mx moves alpha beta best bm c =
      (Return (v, m), c') ->
    In m moves \/ m = bm.
Proof.
  induction moves as [|move rest IH]; intros alpha beta best bm c v m c'; simpl.
  - intros H. inversion H. auto.
  - unfold bind.
    destruct (recurse (forecast_move game move) alpha beta c) as [[r | e] c1];
      [|discriminate].
    destruct mx.
    + destruct (ugt (fst r) best); [destruct (uge (fst r) beta)|];
        intros H; try (inversion H; subst; auto; fail);
        apply IH in H; destruct H as [H | H]; auto.
    + destruct (ult (fst r) best); [destruct (ule (fst r) alpha)|];
        intros H; try (inversion H; subst; auto; fail);
        apply IH in H; destruct H as [H | H]; auto.
Qed.

Lemma minimax_move (depth : nat) (game : State) (mx : bool)
    (c : nat) (v : utility_value) (m : Move) (c' : nat) :
  minimax self time_left depth game mx c = (Return (v, m), c') ->
  In m (get_legal_moves game (active_player game)) \/ m = no_legal_moves.
Proof.
  destruct depth; simpl; unfold bind;
    destruct (check_time self time_left c) as [[[] | e] c1]; try discriminate;
    destruct (get_legal_moves game (active_player game)) as [|first rest] eqn:E;
    intros H; try (inversion H; subst; simpl; auto; fail).
  apply minimax_for_move in H. exact H.
Qed.

Lemma alphabeta_move (depth : nat) (game : State) (alpha beta : utility_value)
    (mx : bool) (c : nat) (v : utility_value) (m : Move) (c' : nat) :
  alphabeta self time_left depth game alpha beta mx c = (Return (v, m), c') ->
  In m (get_legal_moves game (active_player game)) \/ m = no_legal_moves.
Proof.
  destruct depth; simpl; unfold bind;
    destruct (check_time self time_left c) as [[[] | e] c1]; try discriminate;
    destruct (get_legal_moves game (active_player game)) as [|first rest] eqn:E;
    intros H; try (inversion H; subst; simpl; auto; fail).
  apply alphabeta_for_move in H. exact H.
Qed.

Lemma search_by_method_move (game : State) (depth c : nat)
    (v : utility_value) (m : Move) (c' : nat) :
  search_by_method self time_left game depth c = (Return (v, m), c') ->
  In m (get_legal_moves game (active_player game)) \/ m = no_legal_moves.
Proof.
  unfold search_by_method.
  destruct (String.eqb (method self) "minimax");
    [apply minimax_move|].
  destruct (String.eqb (method self) "alphabeta");
    [apply alphabeta_move | discriminate].
Qed.

End ReturnedMove.

(** X1. Whatever the oracle does, a move that [minimax] or [alphabeta]
    returns is one of the legal moves of the node's active player or the
    sentinel [(-1, -1)]. *)
Theorem search_returns_legal_move_or_sentinel
    {State : Type} {B : Board State}
    (self : CustomPlayer State) (time_left : Oracle)
    (depth : nat) (game : State) (alpha beta : utility_value)
    (maximizing_player : bool) (clk : nat)
    (v : utility_value) (m : Move) (clk' : nat) :
  minimax self time_left depth game maximizing_player clk = (Return (v, m), clk') \/
  alphabeta self time_left depth game alpha beta maximizing_player clk =
    (Return (v, m), clk') ->
  In m (get_legal_moves game (active_player game)) \/ m = no_legal_moves.
Proof.
  intros [H | H]; [eapply minimax_move | eapply alphabeta_move]; eauto.
Qed.

Lemma search_returns_legal_move_or_sentinel_witness :
  In (2, 1) (get_legal_moves open_position (active_player open_position)) \/
  (2, 1) = no_legal_moves.
Proof.
  apply (search_returns_legal_move_or_sentinel
           (fixed_player 3 "minimax") ample 3 open_position NegInf PosInf true
           0%nat PosInf (2, 1) 10%nat).
  left. vm_compute. reflexivity.
Defined.

(** ** What the deepening loop hands back *)

Section LastCompleted.

Context {State : Type} {B : Board State}.
Variable self : CustomPlayer State.
Variable time_left : Oracle.

Lemma deepening_loop_last_completed (game : State) (fuel : nat) :
  forall depth bm c r bm' c',
    deepening_loop self time_left fuel game depth bm c = Some (r, bm', c') ->
    (bm' = bm /\
     exists e, r = Raise e /\
       search_by_method self time_left game (S depth) c = (Raise e, c')) \/
    (exists n c0 v m c1,
       (depth < n)%nat /\
       search_by_method self time_left game n c0 = (Return (v, m), c1) /\
       bm' = Some m /\
       ((r = Return m /\ (time_left c1 <= 1 # 1000)%Q /\ c' = S c1) \/
        (exists e, r = Raise e /\ (1 # 1000 < time_left c1)%Q /\
           search_by_method self time_left game (S n) (S c1) = (Raise e, c')))).
Proof.
  induction fuel as [|fuel IH]; intros depth bm c r bm' c';
    cbn [deepening_loop].
  - discriminate.
  - destruct (search_by_method self time_left game (S depth) c)
      as [[[v m] | e] c1] eqn:Hsearch.
    + cbn [snd].
      destruct (Qle_bool (time_left c1) (1 # 1000)) eqn:Hlast.
      * intros H. inversion H; subst. right.
        exists (S depth), c, v, m, c1.
        repeat split; auto. left. repeat split; auto.
        now apply Qle_bool_iff.
      * intros H. apply IH in H.
        assert (Hgt : (1 # 1000 < time_left c1)%Q).
        { apply Qnot_le_lt. intros Hle. apply Qle_bool_iff in Hle. congruence. }
        destruct H as [(-> & e & -> & Hnext) | (n & c0 & v0 & m0 & c2 & Hn & Hrest)].
        -- right. exists (S depth), c, v, m, c1.
           repeat split; auto. right. exists e. repeat split; auto.
        -- right. exists n, c0, v0, m0, c2.
           split; [lia | exact Hrest].
    + intros H. inversion H; subst. left. split; [reflexivity|].
      exists e. split; reflexivity.
Qed.

End LastCompleted.

(** X2. In iterative mode, a move that [get_move] returns is the answer of
    a search that ran to completion at some depth [n >= 1]: either the
    reading taken right after that search was at most 0.001 and stopped the
    loop, or the search at depth [n + 1] was started and aborted with
    [Timeout], and nothing of that aborted pass is used. *)
Theorem get_move_returns_last_completed_depth
    {State : Type} {B : Board State}
    (self : CustomPlayer State) (time_left : Oracle)
    (fuel : nat) (game : State) (legal_moves : list Move)
    (m : Move) (clk : nat) :
  iterative self = true ->
  legal_moves <> [] ->
  get_move self time_left fuel game legal_moves = Some (Return m, clk) ->
  exists n c0 v c1,
    (1 <= n)%nat /\
    search_by_method self time_left game n c0 = (Return (v, m), c1) /\
    (((time_left c1 <= 1 # 1000)%Q /\ clk = S c1) \/
     ((1 # 1000 < time_left c1)%Q /\
      search_by_method self time_left game (S n) (S c1) = (Raise Timeout, clk))).
Proof.
  intros Hiter Hmoves.
  destruct legal_moves as [|first others]; [congruence|].
  unfold get_move. rewrite Hiter.
  destruct (deepening_loop self time_left fuel game 0 None 0)
    as [[[r bm'] c']|] eqn:Hloop; [|discriminate].
  apply deepening_loop_last_completed in Hloop.
  destruct Hloop as [(-> & e & -> & Hfirst) | (n & c0 & v & m0 & c1 & Hn & Hdone & -> & Hend)].
  - destruct e; simpl; discriminate.
  - destruct Hend as [(-> & Hle & ->) | (e & -> & Hgt & Hnext)].
    + intros H. inversion H; subst.
      exists n, c0, v, c1. repeat split; auto; lia.
    + destruct e; simpl; intros H; inversion H; subst.
      exists n, c0, v, c1. split; [lia|]. split; [assumption|]. right. split; assumption.
Qed.

Lemma get_move_returns_last_completed_depth_witness :
  exists n c0 v c1,
    (1 <= n)%nat /\
    search_by_method (deepening_player "alphabeta") (ample_then_expired 5)
      open_position n c0 = (Return (v, (2, 1)), c1) /\
    (((ample_then_expired 5 c1 <= 1 # 1000)%Q /\ 6%nat = S c1) \/
     ((1 # 1000 < ample_then_expired 5 c1)%Q /\
      search_by_method (deepening_player "alphabeta") (ample_then_expired 5)
        open_position (S n) (S c1) = (Raise Timeout, 6%nat))).
Proof.
  apply (get_move_returns_last_completed_depth
           (deepening_player "alphabeta") (ample_then_expired 5) 3
           open_position [(0, 1); (2, 1)] (2, 1) 6%nat).
  - reflexivity.
  - discriminate.
  - vm_compute. reflexivity.
Defined.

(** X3. Whatever the oracle, the mode and the method, a move that
    [get_move] returns is a legal move of the board's active player or the
    sentinel [(-1, -1)]. *)
Theorem get_move_returns_legal_move_or_sentinel
    {State : Type} {B : Board State}
    (self : CustomPlayer State) (time_left : Oracle)
    (fuel : nat) (game : State) (legal_moves : list Move)
    (m : Move) (clk : nat) :
  get_move self time_left fuel game legal_moves = Some (Return m, clk) ->
  In m (get_legal_moves game (active_player game)) \/ m = no_legal_moves.
Proof.
  destruct legal_moves as [|first others].
  - simpl. intros H. inversion H. auto.
  - unfold get_move, fixed_depth_search.
    destruct (iterative self).
    + destruct (deepening_loop self time_left fuel game 0 None 0)
        as [[[r bm'] c']|] eqn:Hloop; [|discriminate].
      apply deepening_loop_last_completed in Hloop.
      destruct Hloop
        as [(-> & e & -> & _) | (n & c0 & v & m0 & c1 & _ & Hdone & -> & Hend)].
      * destruct e; simpl; discriminate.
      * apply search_by_method_move in Hdone.
        destruct Hend as [(-> & _) | (e & -> & _)].
        -- intros H. inversion H; subst. exact Hdone.
        -- destruct e; simpl; intros H; inversion H; subst; exact Hdone.
    + destruct (search_by_method self time_left game (search_depth self) 0%nat)
        as [[[v m0] | e] c1] eqn:Hsearch.
      * simpl. intros H. inversion H; subst.
        eapply search_by_method_move; eauto.
      * destruct e; simpl; discriminate.
Qed.

Lemma get_move_returns_legal_move_or_sentinel_witness :
  In (1, 2) (get_legal_moves lost_in_two (active_player lost_in_two)) \/
  (1, 2) = no_legal_moves.
Proof.
  apply (get_move_returns_legal_move_or_sentinel
           (fixed_player 1 "alphabeta") ample 0 lost_in_two [(1, 2)] (1, 2) 2%nat).
  vm_compute. reflexivity.
Defined.

(** ** The competition agent's [get_move] *)

Section CompetitionSearch.

Context {State : Type} {B : Board State} {G : Scoring.Arena State}.
Variable self : Competition.CustomPlayer.
Variable time_left : Oracle.







End CompetitionSearch.



(** On [tall_board], where [Player1] stands outside the coordinates that
    [get_reflection_available_factor] lists, the heuristic raises
    [ValueError] at the first cutoff node and the exception leaves
    [get_move]; on [open_position] with a deadline [get_move] returns. *)
Example competition_get_move_on_examples :
  Competition.get_move competition_player ample 1 9 tall_board =
    Some (Raise (HeuristicError Scoring.ValueError), 11%nat) /\
  Competition.get_move competition_player (ample_then_expired 9) 2 0 open_position =
    Some (Return (0, 1), 10%nat).
Proof. split; vm_compute; reflexivity. Qed.

(** ** Abort *)



(** ** Alpha-beta with any window *)

(** X6. With an oracle that never triggers the check and a window
    [alpha < beta], [alphabeta] returns a value [v] that is exact inside
    the window and a bound outside: if [alpha < v < beta] then [v] is the
    value [minimax] returns; if [v <= alpha] the minimax value is at most
    [v]; if [v >= beta] the minimax value is at least [v]. *)
Theorem alphabeta_window_is_fail_soft
    {State : Type} {B : Board State}
    (self : CustomPlayer State) (time_left : Oracle)
    (depth : nat) (game : State) (alpha beta : utility_value)
    (maximizing_player : bool) (clk : nat) :
  (forall k, (TIMER_THRESHOLD self <= time_left k)%Q) ->
  ult alpha beta = true ->
  exists v move_ab clk_ab m move_mm clk_mm,
    alphabeta self time_left depth game alpha beta maximizing_player clk =
      (Return (v, move_ab), clk_ab) /\
    minimax self time_left depth game maximizing_player clk =
      (Return (m, move_mm), clk_mm) /\
    (ult alpha v = true -> ult v beta = true -> v = m) /\
    (ule v alpha = true -> ule m v = true) /\
    (uge v beta = true -> ule v m = true).
Proof.
  intros Hnever Hwindow.
  destruct (minimax_value_returned self time_left Hnever depth game
              maximizing_player clk) as (move_mm & clk_mm & Hmm).
  destruct (alphabeta_brackets_minimax self time_left Hnever depth game
              alpha beta maximizing_player clk Hwindow)
    as (v & move_ab & clk_ab & Hab & Hlo & Hhi & Hin).
  exists v, move_ab, clk_ab,
         (minimax_value (score self) depth game maximizing_player),
         move_mm, clk_mm.
  repeat split; auto.
  intros H1 H2. destruct (Hin H1 H2). now apply ule_antisym.
Qed.

Lemma alphabeta_window_is_fail_soft_witness :
  exists v move_ab clk_ab m move_mm clk_mm,
    alphabeta (fixed_player 2 "alphabeta") ample 2 open_position (Fin 2) (Fin 3)
      true 0%nat = (Return (v, move_ab), clk_ab) /\
    minimax (fixed_player 2 "alphabeta") ample 2 open_position true 0%nat =
      (Return (m, move_mm), clk_mm) /\
    (ult (Fin 2) v = true -> ult v (Fin 3) = true -> v = m) /\
    (ule v (Fin 2) = true -> ule m v = true) /\
    (uge v (Fin 3) = true -> ule v m = true).
Proof.
  apply (alphabeta_window_is_fail_soft
           (fixed_player 2 "alphabeta") ample 2 open_position (Fin 2) (Fin 3)
           true 0%nat).
  - intro k. unfold ample, Qle. simpl. lia.
  - reflexivity.
Defined.

(** ** Cost: readings of the oracle, one per node visited *)

Lemma fold_nodes_shift {A : Type} (f : A -> nat) (l : list A) :
  forall a, fold_left (fun n x => (n + f x)%nat) l a =
            (a + fold_left (fun n x => (n + f x)%nat) l O)%nat.
Proof.
  induction l as [|x l IH]; intros a; simpl.
  - lia.
  - rewrite IH. rewrite (IH (f x)). lia.
Qed.

Section Cost.

Context {State : Type} {B : Board State}.
Variable self : CustomPlayer State.
Variable time_left : Oracle.

Hypothesis never_below :
  forall k, (TIMER_THRESHOLD self <= time_left k)%Q.

Lemma minimax_for_cost
    (recurse : State -> M (utility_value * Move)) (cost : State -> nat)
    (game : State) (mx : bool) :
  (forall g c, exists r, recurse g c = (Return r, (c + cost g)%nat)) ->
  forall moves best bm c,
  exists r,
    minimax_for recurse game mx moves best bm c =
    (Return r,
     fold_left (fun n move => (n + cost (forecast_move game move))%nat) moves c).
Proof.
  intros Hrec moves.
  induction moves as [|move rest IH]; intros best bm c; simpl.
  - eexists. reflexivity.
  - unfold bind.
    destruct (Hrec (forecast_move game move) c) as (r & ->).
    destruct mx; [destruct (ugt (fst r) best) | destruct (ult (fst r) best)];
      apply IH.
Qed.

Lemma minimax_cost (depth : nat) :
  forall game mx c,
  exists r,
    minimax self time_left depth game mx c =
    (Return r, (c + tree_nodes depth game)%nat).
Proof.
  induction depth as [|depth IH]; intros game mx c; simpl; unfold bind;
    rewrite (check_time_passes self time_left never_below);
    destruct (get_legal_moves game (active_player game)) as [|first rest] eqn:E;
    try (eexists; unfold ret; f_equal; lia).
  destruct (minimax_for_cost
              (fun next_state => minimax self time_left depth next_state (negb mx))
              (tree_nodes depth) game mx
              (fun g c0 => IH g (negb mx) c0)
              (first :: rest) (if mx then NegInf else PosInf) no_legal_moves (S c))
    as (r & ->).
  exists r. f_equal.
  rewrite fold_nodes_shift. lia.
Qed.

Lemma alphabeta_for_cost
    (recurse : State -> utility_value -> utility_value -> M (utility_value * Move))
    (cost : State -> nat) (game : State) (mx : bool) :
  (forall g a b c, exists r c',
      recurse g a b c = (Return r, c') /\ (c' <= c + cost g)%nat) ->
  forall moves alpha beta best bm c,
  exists r c',
    alphabeta_for recurse game mx moves alpha beta best bm c = (Return r, c') /\
    (c' <= fold_left (fun n move => (n + cost (forecast_move game move))%nat)
             moves c)%nat.
Proof.
  intros Hrec moves.
  induction moves as [|move rest IH]; intros alpha beta best bm c; simpl.
  - eexists _, _. split; [reflexivity | lia].
  - unfold bind.
    destruct (Hrec (forecast_move game move) alpha beta c) as (r & c1 & -> & Hc1).
    set (f := fun n move0 => (n + cost (forecast_move game move0))%nat).
    assert (Hmono : forall a a', (a <= a')%nat ->
              (fold_left f rest a <= fold_left f rest a')%nat).
    { intros a a' Ha. unfold f.
      rewrite (fold_nodes_shift (fun m => cost (forecast_move game m)) rest a).
      rewrite (fold_nodes_shift (fun m => cost (forecast_move game m)) rest a').
      lia. }
    assert (Hgrow : forall a, (a <= fold_left f rest a)%nat).
    { intros a. unfold f.
      rewrite (fold_nodes_shift (fun m => cost (forecast_move game m)) rest a).
      lia. }
    assert (Hstep : forall a b bu bmv,
              exists r' c',
                alphabeta_for recurse game mx rest a b bu bmv c1 = (Return r', c') /\
                (c' <= fold_left f rest (c + cost (forecast_move game move)))%nat).
    { intros a b bu bmv. destruct (IH a b bu bmv c1) as (r' & c' & Hr & Hc).
      exists r', c'. split; [exact Hr|].
      etransitivity; [exact Hc | apply Hmono; exact Hc1]. }
    assert (Hstop : forall r',
              exists r'' c',
                ret (A := utility_value * Move) r' c1 = (Return r'', c') /\
                (c' <= fold_left f rest (c + cost (forecast_move game move)))%nat).
    { intros r'. exists r', c1. split; [reflexivity|].
      etransitivity; [exact Hc1 | apply Hgrow]. }
    destruct mx.
    + destruct (ugt (fst r) best); [destruct (uge (fst r) beta)|];
        [apply Hstop | apply Hstep | apply Hstep].
    + destruct (ult (fst r) best); [destruct (ule (fst r) alpha)|];
        [apply Hstop | apply Hstep | apply Hstep].
Qed.

Lemma alphabeta_cost (depth : nat) :
  forall game alpha beta mx c,
  exists r c',
    alphabeta self time_left depth game alpha beta mx c = (Return r, c') /\
    (c' <= c + tree_nodes depth game)%nat.
Proof.
  induction depth as [|depth IH]; intros game alpha beta mx c; simpl; unfold bind;
    rewrite (check_time_passes self time_left never_below);
    destruct (get_legal_moves game (active_player game)) as [|first rest] eqn:E;
    try (eexists _, _; split; [reflexivity | lia]).
  destruct (alphabeta_for_cost
              (fun next_state a b =>
                 alphabeta self time_left depth next_state a b (negb mx))
              (tree_nodes depth) game mx
              (fun g a b c0 => IH g a b (negb mx) c0)
              (first :: rest) alpha beta (if mx then NegInf else PosInf)
              no_legal_moves (S c))
    as (r & c' & -> & Hc).
  exists r, c'. split; [reflexivity|].
  rewrite fold_nodes_shift in Hc. lia.
Qed.

End Cost.

(** X7. With an oracle that never triggers the check, [minimax] reads the
    oracle exactly once for every node of the game tree cut at the given
    depth, and [alphabeta], for any bounds, never reads it more often than
    that: pruning only ever removes work. *)
Theorem alphabeta_never_visits_more_nodes_than_minimax
    {State : Type} {B : Board State}
    (self : CustomPlayer State) (time_left : Oracle)
    (depth : nat) (game : State) (alpha beta : utility_value)
    (maximizing_player : bool) (clk : nat) :
  (forall k, (TIMER_THRESHOLD self <= time_left k)%Q) ->
  exists r_mm r_ab clk_ab,
    minimax self time_left depth game maximizing_player clk =
      (Return r_mm, (clk + tree_nodes depth game)%nat) /\
    alphabeta self time_left depth game alpha beta maximizing_player clk =
      (Return r_ab, clk_ab) /\
    (clk_ab <= clk + tree_nodes depth game)%nat.
Proof.
  intros Hnever.
  destruct (minimax_cost self time_left Hnever depth game maximizing_player clk)
    as (r_mm & Hmm).
  destruct (alphabeta_cost self time_left Hnever depth game alpha beta
              maximizing_player clk) as (r_ab & clk_ab & Hab & Hle).
  exists r_mm, r_ab, clk_ab. repeat split; assumption.
Qed.

Lemma alphabeta_never_visits_more_nodes_than_minimax_witness :
  exists r_mm r_ab clk_ab,
    minimax (fixed_player 3 "minimax") ample 3 open_position true 0%nat =
      (Return r_mm, (0 + tree_nodes 3 open_position)%nat) /\
    alphabeta (fixed_player 3 "minimax") ample 3 open_position NegInf PosInf
      true 0%nat = (Return r_ab, clk_ab) /\
    (clk_ab <= 0 + tree_nodes 3 open_position)%nat.
Proof.
  apply (alphabeta_never_visits_more_nodes_than_minimax
           (fixed_player 3 "minimax") ample 3 open_position NegInf PosInf
           true 0%nat).
  intro k. unfold ample, Qle. simpl. lia.
Defined.

(** ** The move chosen: ties and the root of alpha-beta *)

Lemma beats_trans (mx : bool) (a b c : utility_value) :
  beats mx a b = true -> beats mx b c = true -> beats mx a c = true.
Proof. unfold beats. destruct mx; intros; utility_order. Qed.

Lemma beats_after_no_gain (mx : bool) (v best x : utility_value) :
  beats mx v best = true -> beats mx x best = false -> beats mx v x = true.
Proof. unfold beats. destruct mx; intros; utility_order. Qed.

Lemma beats_irrefl (mx : bool) (v : utility_value) : beats mx v v = false.
Proof. unfold beats. destruct mx; utility_order. Qed.

Section FirstBest.

Context {State : Type} {B : Board State}.

Lemma minimax_for_first_best
    (recurse : State -> M (utility_value * Move)) (val : Move -> utility_value)
    (game : State) (mx : bool) :
  (forall move c, exists mv c',
      recurse (forecast_move game move) c = (Return (val move, mv), c')) ->
  forall moves best bm c,
  exists v m c',
    minimax_for recurse game mx moves best bm c = (Return (v, m), c') /\
    ((v = best /\ m = bm /\
      forall x, In x moves -> beats mx (val x) best = false) \/
     (exists before after,
        moves = before ++ m :: after /\
        v = val m /\
        beats mx v best = true /\
        (forall x, In x before -> beats mx v (val x) = true) /\
        (forall x, In x after -> beats mx (val x) v = false))).
Proof.
  intros Hrec moves.
  induction moves as [|move rest IH]; intros best bm c; cbn [minimax_for].
  - exists best, bm, c. split; [reflexivity|]. left.
    repeat split. intros x [].
  - unfold bind. destruct (Hrec move c) as (mv & c1 & ->). cbn [fst].
    assert (Hstep :
      (if mx
       then (if ugt (val move) best
             then minimax_for recurse game mx rest (val move) move
             else minimax_for recurse game mx rest best bm)
       else (if ult (val move) best
             then minimax_for recurse game mx rest (val move) move
             else minimax_for recurse game mx rest best bm)) =
      (if beats mx (val move) best
       then minimax_for recurse game mx rest (val move) move
       else minimax_for recurse game mx rest best bm))
      by (unfold beats; destruct mx; reflexivity).
    rewrite Hstep. clear Hstep.
    destruct (beats mx (val move) best) eqn:Hgain.
    + destruct (IH (val move) move c1) as (v & m & c' & Hrun & Hcase).
      exists v, m, c'. split; [exact Hrun|]. right.
      destruct Hcase as [(-> & -> & Hrest) |
                         (before & after & -> & -> & Hv & Hbefore & Hafter)].
      * exists [], rest. repeat split; auto; intros x [].
      * exists (move :: before), after. repeat split; auto.
        -- eapply beats_trans; eauto.
        -- intros x [<- | Hx]; auto.
    + destruct (IH best bm c1) as (v & m & c' & Hrun & Hcase).
      exists v, m, c'. split; [exact Hrun|].
      destruct Hcase as [(-> & -> & Hrest) |
                         (before & after & -> & -> & Hv & Hbefore & Hafter)].
      * left. repeat split. intros x [<- | Hx]; auto.
      * right. exists (move :: before), after. repeat split; auto.
        intros x [<- | Hx]; auto.
        eapply beats_after_no_gain; eauto.
Qed.

End FirstBest.

(** X8. With an oracle that never triggers the check, [minimax] at a depth
    of at least 1 on a node with legal moves returns the earliest best
    move: the value returned is the child value of the returned move, every
    move listed before it is strictly worse and no move listed after it is
    strictly better.  The only other outcome is the sentinel [(-1, -1)]
    with the initial best utility, and it occurs exactly when no move is
    strictly better than that initial utility. *)
Theorem minimax_returns_earliest_best_move
    {State : Type} {B : Board State}
    (self : CustomPlayer State) (time_left : Oracle)
    (depth : nat) (game : State) (maximizing_player : bool) (clk : nat) :
  (forall k, (TIMER_THRESHOLD self <= time_left k)%Q) ->
  get_legal_moves game (active_player game) <> [] ->
  exists (val : Move -> utility_value) v m clk',
    (forall move c, exists mv c',
        minimax self time_left depth (forecast_move game move)
          (negb maximizing_player) c = (Return (val move, mv), c')) /\
    minimax self time_left (S depth) game maximizing_player clk =
      (Return (v, m), clk') /\
    ((v = initial_best maximizing_player /\ m = no_legal_moves /\
      forall x, In x (get_legal_moves game (active_player game)) ->
                beats maximizing_player (val x)
                  (initial_best maximizing_player) = false) \/
     (exists before after,
        get_legal_moves game (active_player game) = before ++ m :: after /\
        v = val m /\
        beats maximizing_player v (initial_best maximizing_player) = true /\
        (forall x, In x before -> beats maximizing_player v (val x) = true) /\
        (forall x, In x after -> beats maximizing_player (val x) v = false))).
Proof.
  intros Hnever Hmoves.
  set (val := fun move =>
         minimax_value (score self) depth (forecast_move game move)
           (negb maximizing_player)).
  assert (Hval : forall move c, exists mv c',
             minimax self time_left depth (forecast_move game move)
               (negb maximizing_player) c = (Return (val move, mv), c')).
  { intros move c. apply minimax_value_returned. exact Hnever. }
  destruct (get_legal_moves game (active_player game)) as [|first rest] eqn:E;
    [congruence|].
  destruct (minimax_for_first_best
              (fun next_state =>
                 minimax self time_left depth next_state (negb maximizing_player))
              val game maximizing_player Hval (first :: rest)
              (initial_best maximizing_player) no_legal_moves (S clk))
    as (v & m & clk' & Hrun & Hcase).
  exists val, v, m, clk'. split; [exact Hval|]. split; [|exact Hcase].
  cbn [minimax]. unfold bind.
  rewrite (check_time_passes self time_left Hnever). rewrite E. exact Hrun.
Qed.

Lemma minimax_returns_earliest_best_move_witness :
  exists (val : Move -> utility_value) v m clk',
    (forall move c, exists mv c',
        minimax (fixed_player 2 "minimax") ample 1
          (forecast_move open_position move) (negb true) c =
          (Return (val move, mv), c')) /\
    minimax (fixed_player 2 "minimax") ample 2 open_position true 0%nat =
      (Return (v, m), clk') /\
    ((v = initial_best true /\ m = no_legal_moves /\
      forall x, In x (get_legal_moves open_position (active_player open_position)) ->
                beats true (val x) (initial_best true) = false) \/
     (exists before after,
        get_legal_moves open_position (active_player open_position) =
          before ++ m :: after /\
        v = val m /\
        beats true v (initial_best true) = true /\
        (forall x, In x before -> beats true v (val x) = true) /\
        (forall x, In x after -> beats true (val x) v = false))).
Proof.
  apply (minimax_returns_earliest_best_move
           (fixed_player 2 "minimax") ample 1 open_position true 0%nat).
  - intro k. unfold ample, Qle. simpl. lia.
  - discriminate.
Defined.

(** At the root, with the full window, the bracket is exact as soon as the
    answer improves on the best so far. *)

Lemma root_max_exact (best m v : utility_value) :
  bracket best PosInf m v -> ugt v best = true -> v = m.
Proof. unfold bracket. intros; utility_order. Qed.

Lemma root_max_keep (best m v : utility_value) :
  bracket best PosInf m v -> ugt v best = false -> ugt m best = false.
Proof. unfold bracket. intros; utility_order. Qed.

Lemma root_min_exact (best m v : utility_value) :
  bracket NegInf best m v -> ult v best = true -> v = m.
Proof. unfold bracket. intros; utility_order. Qed.

Lemma root_min_keep (best m v : utility_value) :
  bracket NegInf best m v -> ult v best = false -> ult m best = false.
Proof. unfold bracket. intros; utility_order. Qed.

Lemma umax_improved (best v : utility_value) :
  ugt v best = true -> umax best v = v.
Proof. intros; utility_order. Qed.

Lemma umin_improved (best v : utility_value) :
  ult v best = true -> umin best v = v.
Proof. intros; utility_order. Qed.

Section RootMove.

Context {State : Type} {B : Board State}.

Variable recurse_ab :
  State -> utility_value -> utility_value -> M (utility_value * Move).
Variable recurse_mm : State -> M (utility_value * Move).
Variable val : Move -> utility_value.
Variable game : State.

Hypothesis children_ab :
  forall move a b c, ult a b = true ->
    exists v mv c',
      recurse_ab (forecast_move game move) a b c = (Return (v, mv), c') /\
      bracket a b (val move) v.

Hypothesis children_mm :
  forall move c, exists mv c',
    recurse_mm (forecast_move game move) c = (Return (val move, mv), c').

Lemma minimax_for_saturated (mx : bool) (moves : list Move) (bm : Move) (c : nat) :
  exists c',
    minimax_for recurse_mm game mx moves (if mx then PosInf else NegInf) bm c =
    (Return (if mx then PosInf else NegInf, bm), c').
Proof.
  destruct (minimax_for_first_best recurse_mm val game mx children_mm moves
              (if mx then PosInf else NegInf) bm c)
    as (v & m & c' & Hrun & [(-> & -> & _) | (_ & _ & _ & _ & Hbeat & _)]).
  - exists c'. exact Hrun.
  - exfalso. unfold beats in Hbeat. destruct mx; utility_order.
Qed.

Lemma root_loop_max (moves : list Move) :
  forall best bm c1 c2,
    ult best PosInf = true ->
    exists v m c1' c2',
      alphabeta_for recurse_ab game true moves best PosInf best bm c1 =
        (Return (v, m), c1') /\
      minimax_for recurse_mm game true moves best bm c2 = (Return (v, m), c2').
Proof.
  induction moves as [|move rest IH]; intros best bm c1 c2 Hbest.
  - exists best, bm, c1, c2. split; reflexivity.
  - cbn [alphabeta_for minimax_for]. unfold bind.
    destruct (children_ab move best PosInf c1 Hbest) as (v & mv & c1' & -> & Hv).
    destruct (children_mm move c2) as (mv' & c2' & ->).
    cbn [fst].
    destruct (ugt v best) eqn:Hgain.
    + pose proof (root_max_exact _ _ _ Hv Hgain) as <-.
      rewrite Hgain.
      destruct (uge v PosInf) eqn:Hcut.
      * assert (v = PosInf) by utility_order. subst v.
        destruct (minimax_for_saturated true rest move c2') as (c2'' & ->).
        exists PosInf, move, c1', c2''. split; reflexivity.
      * rewrite umax_improved by exact Hgain.
        apply IH. utility_order.
    + rewrite (root_max_keep _ _ _ Hv Hgain).
      apply IH. exact Hbest.
Qed.

Lemma root_loop_min (moves : list Move) :
  forall best bm c1 c2,
    ult NegInf best = true ->
    exists v m c1' c2',
      alphabeta_for recurse_ab game false moves NegInf best best bm c1 =
        (Return (v, m), c1') /\
      minimax_for recurse_mm game false moves best bm c2 = (Return (v, m), c2').
Proof.
  induction moves as [|move rest IH]; intros best bm c1 c2 Hbest.
  - exists best, bm, c1, c2. split; reflexivity.
  - cbn [alphabeta_for minimax_for]. unfold bind.
    destruct (children_ab move NegInf best c1 Hbest) as (v & mv & c1' & -> & Hv).
    destruct (children_mm move c2) as (mv' & c2' & ->).
    cbn [fst].
    destruct (ult v best) eqn:Hgain.
    + pose proof (root_min_exact _ _ _ Hv Hgain) as <-.
      rewrite Hgain.
      destruct (ule v NegInf) eqn:Hcut.
      * assert (v = NegInf) by utility_order. subst v.
        destruct (minimax_for_saturated false rest move c2') as (c2'' & ->).
        exists NegInf, move, c1', c2''. split; reflexivity.
      * rewrite umin_improved by exact Hgain.
        apply IH. utility_order.
    + rewrite (root_min_keep _ _ _ Hv Hgain).
      apply IH. exact Hbest.
Qed.

End RootMove.

Lemma alphabeta_root_pair
    {State : Type} {B : Board State}
    (self : CustomPlayer State) (time_left : Oracle)
    (depth : nat) (game : State) (mx : bool) (c1 c2 : nat) :
  (forall k, (TIMER_THRESHOLD self <= time_left k)%Q) ->
  exists v m c1' c2',
    alphabeta self time_left depth game NegInf PosInf mx c1 =
      (Return (v, m), c1') /\
    minimax self time_left depth game mx c2 = (Return (v, m), c2').
Proof.
  intros Hnever.
  destruct depth as [|depth]; cbn [alphabeta minimax]; unfold bind;
    rewrite !(check_time_passes self time_left Hnever);
    destruct (get_legal_moves game (active_player game)) as [|first rest] eqn:E;
    try (eexists _, _, _, _; split; reflexivity).
  set (val := fun move =>
         minimax_value (score self) depth (forecast_move game move) (negb mx)).
  assert (Hab : forall move a b c, ult a b = true ->
            exists v mv c',
              alphabeta self time_left depth (forecast_move game move) a b
                (negb mx) c = (Return (v, mv), c') /\
              bracket a b (val move) v)
    by (intros; apply alphabeta_brackets_minimax; assumption).
  assert (Hmm : forall move c, exists mv c',
            minimax self time_left depth (forecast_move game move) (negb mx) c =
            (Return (val move, mv), c'))
    by (intros; apply minimax_value_returned; assumption).
  destruct mx.
  - apply (root_loop_max
             (fun next_state a b =>
                alphabeta self time_left depth next_state a b (negb true))
             (fun next_state => minimax self time_left depth next_state (negb true))
             val game Hab Hmm). reflexivity.
  - apply (root_loop_min
             (fun next_state a b =>
                alphabeta self time_left depth next_state a b (negb false))
             (fun next_state => minimax self time_left depth next_state (negb false))
             val game Hab Hmm). reflexivity.
Qed.

(** X9. With an oracle that never triggers the check, [alphabeta] called
    with the default bounds returns the very pair [minimax] returns: not
    only the same utility but also the same move. *)
Theorem alphabeta_returns_the_move_of_minimax
    {State : Type} {B : Board State}
    (self : CustomPlayer State) (time_left : Oracle)
    (depth : nat) (game : State) (maximizing_player : bool) (clk : nat) :
  (forall k, (TIMER_THRESHOLD self <= time_left k)%Q) ->
  exists v m clk_ab clk_mm,
    alphabeta self time_left depth game NegInf PosInf maximizing_player clk =
      (Return (v, m), clk_ab) /\
    minimax self time_left depth game maximizing_player clk =
      (Return (v, m), clk_mm).
Proof.
  intros Hnever. now apply alphabeta_root_pair.
Qed.

Lemma alphabeta_returns_the_move_of_minimax_witness :
  exists v m clk_ab clk_mm,
    alphabeta (fixed_player 3 "alphabeta") ample 3 open_position
      NegInf PosInf true 0%nat = (Return (v, m), clk_ab) /\
    minimax (fixed_player 3 "alphabeta") ample 3 open_position true 0%nat =
      (Return (v, m), clk_mm).
Proof.
  apply (alphabeta_returns_the_move_of_minimax
           (fixed_player 3 "alphabeta") ample 3 open_position true 0%nat).
  intro k. unfold ample, Qle. simpl. lia.
Defined.

(** X10. In fixed-depth mode and with an oracle that never triggers the
    check, the method does not change the move played: two players that
    differ only in [method], one ['alphabeta'] and one ['minimax'], get the
    same move from [get_move]. *)
Theorem fixed_depth_move_does_not_depend_on_method
    {State : Type} {B : Board State}
    (pruning plain : CustomPlayer State) (time_left : Oracle)
    (fuel : nat) (game : State) (legal_moves : list Move) :
  method pruning = "alphabeta"%string ->
  method plain = "minimax"%string ->
  iterative pruning = false ->
  iterative plain = false ->
  search_depth pruning = search_depth plain ->
  score pruning = score plain ->
  TIMER_THRESHOLD pruning = TIMER_THRESHOLD plain ->
  (forall k, (TIMER_THRESHOLD plain <= time_left k)%Q) ->
  exists m clk_ab clk_mm,
    get_move pruning time_left fuel game legal_moves = Some (Return m, clk_ab) /\
    get_move plain time_left fuel game legal_moves = Some (Return m, clk_mm).
Proof.
  destruct pruning as [d1 s1 i1 m1 t1], plain as [d2 s2 i2 m2 t2].
  cbn [method iterative search_depth score TIMER_THRESHOLD].
  intros -> -> -> -> -> -> -> Hnever.
  destruct legal_moves as [|first others].
  - exists no_legal_moves, 0%nat, 0%nat. split; reflexivity.
  - unfold get_move, fixed_depth_search, search_by_method.
    cbn [method iterative search_depth].
    change (String.eqb "alphabeta" "minimax") with false.
    change (String.eqb "alphabeta" "alphabeta") with true.
    change (String.eqb "minimax" "minimax") with true.
    cbv iota.
    set (pruning := {| search_depth := d2; score := s2; iterative := false;
                       method := "alphabeta"; TIMER_THRESHOLD := t2 |}).
    set (plain := {| search_depth := d2; score := s2; iterative := false;
                     method := "minimax"; TIMER_THRESHOLD := t2 |}).
    change (alphabeta pruning time_left d2 game NegInf PosInf true 0%nat)
      with (alphabeta plain time_left d2 game NegInf PosInf true 0%nat).
    destruct (alphabeta_root_pair plain time_left d2 game true 0%nat 0%nat Hnever)
      as (v & m & c1 & c2 & -> & ->).
    exists m, c1, c2. split; reflexivity.
Qed.

Lemma fixed_depth_move_does_not_depend_on_method_witness :
  exists m clk_ab clk_mm,
    get_move (fixed_player 3 "alphabeta") ample 0 open_position [(0, 1); (2, 1)] =
      Some (Return m, clk_ab) /\
    get_move (fixed_player 3 "minimax") ample 0 open_position [(0, 1); (2, 1)] =
      Some (Return m, clk_mm).
Proof.
  apply (fixed_depth_move_does_not_depend_on_method
           (fixed_player 3 "alphabeta") (fixed_player 3 "minimax") ample 0
           open_position [(0, 1); (2, 1)]); try reflexivity.
  intro k. unfold ample, Qle. simpl. lia.
Defined.

(** ** The assertion of [run]: a legal move at depth 1 *)

Lemma beats_initial_max (v : utility_value) :
  v <> NegInf -> beats true v (initial_best true) = true.
Proof. unfold beats, initial_best. intros; utility_order. Qed.

(** X11. The set-up of [run]: fixed-depth [minimax] at depth 1.  When the
    oracle never triggers the check and no answer to a legal move is worth
    [-inf] to the player who moves (neither the heuristic on a position
    where the opponent can still move, nor the utility of a position where
    the opponent cannot), [get_move] returns one of the legal moves, as the
    assertion at the end of [run] requires. *)
Theorem depth_one_minimax_returns_a_legal_move
    {State : Type} {B : Board State}
    (self : CustomPlayer State) (time_left : Oracle)
    (fuel : nat) (game : State) (legal_moves : list Move) :
  iterative self = false ->
  method self = "minimax"%string ->
  search_depth self = 1%nat ->
  (forall k, (TIMER_THRESHOLD self <= time_left k)%Q) ->
  legal_moves = get_legal_moves game (active_player game) ->
  legal_moves <> [] ->
  (forall move, In move legal_moves ->
     let child := forecast_move game move in
     match get_legal_moves child (active_player child) with
     | [] => utility child (inactive_player child) <> NegInf
     | _ :: _ => score self child (inactive_player child) <> NegInf
     end) ->
  exists m clk,
    get_move self time_left fuel game legal_moves = Some (Return m, clk) /\
    In m legal_moves.
Proof.
  intros Hiter Hmethod Hdepth Hnever -> Hmoves Hchildren.
  destruct (get_legal_moves game (active_player game)) as [|first rest] eqn:E;
    [congruence|].
  unfold get_move, fixed_depth_search, search_by_method.
  rewrite Hiter, Hmethod, Hdepth.
  change (String.eqb "minimax" "minimax") with true. cbv iota.
  set (val := fun move =>
         minimax_value (score self) 0 (forecast_move game move) false).
  destruct (minimax_for_first_best
              (fun next_state => minimax self time_left 0 next_state (negb true))
              val game true
              (fun move c =>
                 minimax_value_returned self time_left Hnever 0
                   (forecast_move game move) false c)
              (first :: rest) NegInf no_legal_moves 1%nat)
    as (v & m & clk & Hrun & Hcase).
  assert (Hsearch : minimax self time_left 1 game true 0%nat =
                    (Return (v, m), clk)).
  { cbn [minimax]. unfold bind.
    rewrite (check_time_passes self time_left Hnever). rewrite E. exact Hrun. }
  rewrite Hsearch. cbn [snd].
  exists m, clk. split; [reflexivity|].
  destruct Hcase as [(_ & _ & Hnone) | (before & after & Hsplit & _)].
  - exfalso.
    assert (Hfirst : val first <> NegInf).
    { specialize (Hchildren first (or_introl eq_refl)). cbv zeta in Hchildren.
      unfold val. cbn [minimax_value].
      destruct (get_legal_moves (forecast_move game first)
                  (active_player (forecast_move game first))); exact Hchildren. }
    specialize (Hnone first (or_introl eq_refl)).
    pose proof (beats_initial_max _ Hfirst) as Hbeat.
    unfold initial_best in Hbeat. congruence.
  - rewrite Hsplit. apply in_or_app. right. left. reflexivity.
Qed.

Lemma depth_one_minimax_returns_a_legal_move_witness :
  exists m clk,
    get_move (fixed_player 1 "minimax") ample 0 lost_in_two [(1, 2)] =
      Some (Return m, clk) /\
    In m [(1, 2)].
Proof.
  apply (depth_one_minimax_returns_a_legal_move
           (fixed_player 1 "minimax") ample 0 lost_in_two [(1, 2)]);
    try reflexivity.
  - intro k. unfold ample, Qle. simpl. lia.
  - discriminate.
  - intros move [<- | []]. simpl. discriminate.
Defined.

(** ** The heuristics of the competition agent *)

Lemma move_eqb_eq (a b : Move) : move_eqb a b = true <-> a = b.
Proof.
  destruct a as [a1 a2], b as [b1 b2]. unfold move_eqb. simpl.
  rewrite andb_true_iff, !Z.eqb_eq. split.
  - intros [-> ->]. reflexivity.
  - intros H. inversion H. auto.
Qed.

Lemma move_eqb_refl (a : Move) : move_eqb a a = true.
Proof. now apply move_eqb_eq. Qed.

Lemma contains_In (l : list Move) (x : Move) :
  Scoring.contains l x = true <-> In x l.
Proof.
  unfold Scoring.contains. rewrite existsb_exists. split.
  - intros (y & Hy & Heq). apply move_eqb_eq in Heq. now subst.
  - intros H. exists x. split; [exact H | apply move_eqb_refl].
Qed.

(** Positions in a product of two lists. *)

Lemma nth_error_list_prod {A C : Type} (l1 : list A) (l2 : list C) :
  forall i j a b,
    nth_error l1 i = Some a ->
    nth_error l2 j = Some b ->
    nth_error (list_prod l1 l2) (i * List.length l2 + j) = Some (a, b).
Proof.
  induction l1 as [|x l1 IH]; intros i j a b Ha Hb.
  - destruct i; discriminate.
  - assert (Hj : (j < List.length l2)%nat)
      by (apply nth_error_Some; congruence).
    cbn [list_prod]. destruct i as [|i]; cbn [nth_error] in Ha.
    + inversion Ha; subst. cbn [Nat.mul Nat.add].
      rewrite nth_error_app1 by (rewrite length_map; exact Hj).
      now apply map_nth_error.
    + rewrite nth_error_app2 by (rewrite length_map; lia).
      rewrite length_map.
      replace (S i * List.length l2 + j - List.length l2)%nat
        with (i * List.length l2 + j)%nat by lia.
      now apply IH.
Qed.

Lemma NoDup_list_prod {A C : Type} (l1 : list A) (l2 : list C) :
  NoDup l1 -> NoDup l2 -> NoDup (list_prod l1 l2).
Proof.
  intros H1 H2. induction H1 as [|x l1 Hx H1 IH]; cbn [list_prod].
  - constructor.
  - apply NoDup_app.
    + apply NoDup_map_NoDup_ForallPairs; [|exact H2].
      intros a b _ _ Heq. now inversion Heq.
    + exact IH.
    + intros [a b] Hin Hin'.
      apply in_map_iff in Hin. destruct Hin as (y & Hy & _). inversion Hy; subst.
      apply in_prod_iff in Hin'. destruct Hin' as [Hin' _]. contradiction.
Qed.

Lemma index_of_position (l : list Move) :
  NoDup l ->
  forall n x, nth_error l n = Some x -> Scoring.index l x = Scoring.Value n.
Proof.
  intros Hnd. induction Hnd as [|y l Hy Hnd IH]; intros n x Hn.
  - destruct n; discriminate.
  - cbn [Scoring.index]. destruct n as [|n]; cbn [nth_error] in Hn.
    + inversion Hn; subst. now rewrite move_eqb_refl.
    + destruct (move_eqb y x) eqn:E.
      * apply move_eqb_eq in E. subst y.
        exfalso. apply Hy. eapply nth_error_In; eauto.
      * rewrite (IH n x Hn). reflexivity.
Qed.

Lemma index_absent (l : list Move) (x : Move) :
  ~ In x l -> Scoring.index l x = Scoring.Fault Scoring.ValueError.
Proof.
  induction l as [|y l IH]; intros Hx; cbn [Scoring.index].
  - reflexivity.
  - destruct (move_eqb y x) eqn:E.
    + apply move_eqb_eq in E. subst. exfalso. apply Hx. left. reflexivity.
    + rewrite IH; [reflexivity|]. intros H. apply Hx. right. exact H.
Qed.

Lemma range_NoDup (n : Z) : NoDup (Scoring.range n).
Proof.
  unfold Scoring.range.
  apply NoDup_map_NoDup_ForallPairs; [|apply seq_NoDup].
  intros a b _ _. apply Nat2Z.inj.
Qed.

Lemma range_length (n : Z) : List.length (Scoring.range n) = Z.to_nat n.
Proof. unfold Scoring.range. now rewrite length_map, length_seq. Qed.

Lemma range_nth (n x : Z) :
  0 <= x < n -> nth_error (Scoring.range n) (Z.to_nat x) = Some x.
Proof.
  intros Hx. unfold Scoring.range.
  rewrite nth_error_map, nth_error_seq.
  destruct (Nat.ltb_spec (Z.to_nat x) (Z.to_nat n)); [|lia].
  cbn. f_equal. lia.
Qed.

Lemma range_In (n x : Z) : In x (Scoring.range n) <-> 0 <= x < n.
Proof.
  unfold Scoring.range. rewrite in_map_iff. split.
  - intros (k & <- & Hk). apply in_seq in Hk. lia.
  - intros Hx. exists (Z.to_nat x). split; [lia|]. apply in_seq. lia.
Qed.

(** The cell opposite to [(x, y)] through the centre of the board. *)
Lemma mirrored_cell (w h x y : Z) :
  0 <= x < w -> 0 <= y < h ->
  let all_coords := list_prod (Scoring.range w) (Scoring.range h) in
  exists i,
    Scoring.index all_coords (x, y) = Scoring.Value i /\
    Scoring.item (rev all_coords) i = Scoring.Value (w - 1 - x, h - 1 - y).
Proof.
  intros Hx Hy all_coords.
  exists (Z.to_nat x * List.length (Scoring.range h) + Z.to_nat y)%nat.
  split.
  - apply index_of_position.
    + apply NoDup_list_prod; apply range_NoDup.
    + apply nth_error_list_prod; now apply range_nth.
  - unfold Scoring.item. rewrite nth_error_rev.
    subst all_coords. rewrite length_prod, !range_length.
    destruct (Nat.ltb_spec (Z.to_nat x * Z.to_nat h + Z.to_nat y)
                (Z.to_nat w * Z.to_nat h)) as [Hlt | Hge]; [|nia].
    replace (Z.to_nat w * Z.to_nat h - S (Z.to_nat x * Z.to_nat h + Z.to_nat y))%nat
      with (Z.to_nat (w - 1 - x) * List.length (Scoring.range h)
            + Z.to_nat (h - 1 - y))%nat
      by (rewrite range_length; nia).
    rewrite (nth_error_list_prod (Scoring.range w) (Scoring.range h)
               _ _ (w - 1 - x) (h - 1 - y));
      [reflexivity | apply range_nth; lia | apply range_nth; lia].
Qed.

Lemma not_empty_board (total empty : Z) :
  total <> empty ->
  Scoring.truthy (Scoring.is_empty_board total empty) = false.
Proof.
  intros H. unfold Scoring.is_empty_board.
  destruct (Z.eqb_spec total empty); [contradiction | reflexivity].
Qed.

Lemma empty_board (total : Z) :
  Scoring.truthy (Scoring.is_empty_board total total) = true.
Proof. unfold Scoring.is_empty_board. now rewrite Z.eqb_refl. Qed.

Lemma index_fault (l : list Move) (x : Move) (e : Scoring.error) :
  Scoring.index l x = Scoring.Fault e -> e = Scoring.ValueError.
Proof.
  induction l as [|y l IH]; cbn [Scoring.index].
  - intros H. now inversion H.
  - destruct (move_eqb y x); [discriminate|].
    destruct (Scoring.index l x); cbn; [discriminate|].
    intros H. inversion H; subst. now apply IH.
Qed.

(** X12. On a board that is not empty, when both players stand on cells
    [(x, y)] with [0 <= x < width] and [0 <= y < height],
    [get_reflection_available_factor] raises nothing and answers [2.0]
    exactly when the cell opposite to the opponent through the centre of
    the board, [(width - 1 - x, height - 1 - y)], is one of the player's
    legal moves; otherwise it answers [1.0]. *)
Theorem reflection_factor_looks_at_the_opposite_cell
    {State : Type} {B : Board State} {G : Scoring.Arena State}
    (game : State) (player : Player) (px py ox oy : Z) :
  Scoring.height game * Scoring.width game <>
    Scoring.len (Scoring.get_blank_spaces game) ->
  Scoring.get_player_location game player = Some (px, py) ->
  Scoring.get_player_location game (Scoring.get_opponent game player) =
    Some (ox, oy) ->
  0 <= px < Scoring.width game -> 0 <= py < Scoring.height game ->
  0 <= ox < Scoring.width game -> 0 <= oy < Scoring.height game ->
  Scoring.get_reflection_available_factor game player =
  Scoring.Value
    (if Scoring.contains (get_legal_moves game player)
          (Scoring.width game - 1 - ox, Scoring.height game - 1 - oy)
     then 2 else 1).
Proof.
  intros Hused Hplayer Hopp Hpx Hpy Hox Hoy.
  unfold Scoring.get_reflection_available_factor.
  rewrite not_empty_board by exact Hused.
  rewrite Hplayer, Hopp. cbn [Scoring.unpack Scoring.and_then].
  destruct (mirrored_cell _ _ px py Hpx Hpy) as (i & Hi & Hmi).
  destruct (mirrored_cell _ _ ox oy Hox Hoy) as (j & Hj & Hmj).
  cbv zeta in Hi, Hmi, Hj, Hmj.
  rewrite Hi. cbn [Scoring.and_then].
  rewrite Hj. cbn [Scoring.and_then].
  rewrite Hmi. cbn [Scoring.and_then].
  rewrite Hmj. cbn [Scoring.and_then].
  destruct (Scoring.contains (get_legal_moves game player)
              (Scoring.width game - 1 - ox, Scoring.height game - 1 - oy));
    reflexivity.
Qed.

Lemma reflection_factor_looks_at_the_opposite_cell_witness :
  Scoring.get_reflection_available_factor three_by_three Player1 =
  Scoring.Value
    (if Scoring.contains (get_legal_moves three_by_three Player1)
          (3 - 1 - 1, 3 - 1 - 0)
     then 2 else 1).
Proof.
  refine (reflection_factor_looks_at_the_opposite_cell
            three_by_three Player1 0 0 1 0 _ eq_refl eq_refl _ _ _ _);
    simpl; try lia.
  discriminate.
Defined.

(** X13. The edges of [get_reflection_available_factor].  On an empty board
    it answers [1.0] without looking at the players.  On a board that is
    not empty it raises [TypeError] when the player or the opponent has no
    location yet, and [ValueError] when a location is not a cell [(x, y)]
    with [0 <= x < width] and [0 <= y < height]. *)
Theorem reflection_factor_edge_cases
    {State : Type} {B : Board State} {G : Scoring.Arena State}
    (game : State) (player : Player) :
  let in_range := fun p : Move =>
    (0 <= fst p < Scoring.width game) /\ (0 <= snd p < Scoring.height game) in
  let opponent := Scoring.get_opponent game player in
  (Scoring.height game * Scoring.width game =
     Scoring.len (Scoring.get_blank_spaces game) ->
   Scoring.get_reflection_available_factor game player = Scoring.Value 1) /\
  (Scoring.height game * Scoring.width game <>
     Scoring.len (Scoring.get_blank_spaces game) ->
   (Scoring.get_player_location game player = None ->
    Scoring.get_reflection_available_factor game player =
      Scoring.Fault Scoring.TypeError) /\
   (forall p,
      Scoring.get_player_location game player = Some p ->
      Scoring.get_player_location game opponent = None ->
      Scoring.get_reflection_available_factor game player =
        Scoring.Fault Scoring.TypeError) /\
   (forall p q,
      Scoring.get_player_location game player = Some p ->
      Scoring.get_player_location game opponent = Some q ->
      ~ in_range p \/ ~ in_range q ->
      Scoring.get_reflection_available_factor game player =
        Scoring.Fault Scoring.ValueError)).
Proof.
  intros in_range opponent. split.
  - intros Hempty. unfold Scoring.get_reflection_available_factor.
    rewrite Hempty, empty_board. reflexivity.
  - intros Hused.
    unfold Scoring.get_reflection_available_factor.
    rewrite not_empty_board by exact Hused.
    split; [|split].
    + intros ->. reflexivity.
    + intros p -> Hq. fold opponent. rewrite Hq. reflexivity.
    + intros p q -> Hq Hout. fold opponent. rewrite Hq.
      cbn [Scoring.unpack Scoring.and_then].
      assert (Habsent : forall c : Move, ~ in_range c ->
                ~ In c (list_prod (Scoring.range (Scoring.width game))
                          (Scoring.range (Scoring.height game)))).
      { intros [x y] Hc Hin. apply Hc. apply in_prod_iff in Hin.
        rewrite !range_In in Hin. exact Hin. }
      destruct Hout as [Hp | Hq'].
      * rewrite (index_absent _ p (Habsent p Hp)). reflexivity.
      * destruct (Scoring.index
                    (list_prod (Scoring.range (Scoring.width game))
                       (Scoring.range (Scoring.height game))) p)
          as [i | e] eqn:Hi.
        -- cbn [Scoring.and_then].
           rewrite (index_absent _ q (Habsent q Hq')). reflexivity.
        -- apply index_fault in Hi. subst e. reflexivity.
Qed.

Lemma reflection_factor_edge_cases_witness :
  Scoring.get_reflection_available_factor one_player_placed Player1 =
    Scoring.Fault Scoring.TypeError /\
  Scoring.get_reflection_available_factor tall_board Player1 =
    Scoring.Fault Scoring.ValueError.
Proof.
  destruct (reflection_factor_edge_cases one_player_placed Player1)
    as [_ Hplaced].
  destruct (reflection_factor_edge_cases tall_board Player1) as [_ Htall].
  split.
  - destruct Hplaced as (_ & Hopp & _); [discriminate|].
    apply (Hopp (0, 0)); reflexivity.
  - destruct Htall as (_ & _ & Hrange); [discriminate|].
    apply (Hrange (2, 0) (0, 0)); try reflexivity.
    left. simpl. lia.
Defined.

(** One move of the partition loop. *)

Lemma partition_of_move_cases (blank : list Move) (move : Move) :
  let free := fun c => Scoring.contains blank c in
  (Scoring.partition_of_move blank move = None /\
   free (fst move - 1, snd move) = true /\
   free (fst move + 1, snd move) = true /\
   free (fst move, snd move - 1) = true /\
   free (fst move, snd move + 1) = true) \/
  ((Scoring.partition_of_move blank move = Some 2 \/
    Scoring.partition_of_move blank move = Some 4) /\
   (free (fst move - 1, snd move) = false \/
    free (fst move + 1, snd move) = false \/
    free (fst move, snd move - 1) = false \/
    free (fst move, snd move + 1) = false)).
Proof.
  intros free. subst free. cbv beta. unfold Scoring.partition_of_move. cbv zeta.
  destruct (Scoring.contains blank (fst move - 1, snd move)),
           (Scoring.contains blank (fst move + 1, snd move)),
           (Scoring.contains blank (fst move, snd move - 1)),
           (Scoring.contains blank (fst move, snd move + 1)),
           (Scoring.contains blank (fst move - 2, snd move)),
           (Scoring.contains blank (fst move + 2, snd move)),
           (Scoring.contains blank (fst move, snd move - 2)),
           (Scoring.contains blank (fst move, snd move + 2));
    cbn;
    solve [ left; repeat split; reflexivity
          | right; split;
            [first [left; reflexivity | right; reflexivity] | auto 6] ].
Qed.

Lemma partition_loop_cases (blank : list Move) (own_moves : list Move) :
  let free := fun c => Scoring.contains blank c in
  let surrounded_by_blanks := fun move : Move =>
    free (fst move - 1, snd move) = true /\
    free (fst move + 1, snd move) = true /\
    free (fst move, snd move - 1) = true /\
    free (fst move, snd move + 1) = true in
  (Scoring.partition_loop blank own_moves = 1 /\
   forall move, In move own_moves -> surrounded_by_blanks move) \/
  ((Scoring.partition_loop blank own_moves = 2 \/
    Scoring.partition_loop blank own_moves = 4) /\
   exists move, In move own_moves /\ ~ surrounded_by_blanks move).
Proof.
  intros free surrounded_by_blanks.
  induction own_moves as [|move rest IH]; cbn [Scoring.partition_loop].
  - left. split; [reflexivity | intros move []].
  - destruct (partition_of_move_cases blank move)
      as [(-> & Hfree) | ([-> | ->] & Hblocked)].
    + destruct IH as [(-> & Hall) | (Hval & move' & Hin & Hnot)].
      * left. split; [reflexivity|]. intros m [<- | Hm]; auto.
      * right. split; [exact Hval|]. exists move'. split; [right|]; assumption.
    + right. split; [left; reflexivity|]. exists move. split; [left; reflexivity|].
      unfold surrounded_by_blanks, free. intros (H1 & H2 & H3 & H4).
      fold free in Hblocked. unfold free in Hblocked.
      destruct Hblocked as [H | [H | [H | H]]]; congruence.
    + right. split; [right; reflexivity|]. exists move. split; [left; reflexivity|].
      unfold surrounded_by_blanks, free. intros (H1 & H2 & H3 & H4).
      fold free in Hblocked. unfold free in Hblocked.
      destruct Hblocked as [H | [H | [H | H]]]; congruence.
Qed.

(** X14. [get_partition_possible_factor] answers [1.0], [2.0] or [4.0], and
    it answers [1.0] exactly when the board is empty or every legal move of
    the player has its four neighbours (left, right, below, above) among
    the blank cells; a neighbour off the board counts as not blank. *)
Theorem partition_factor_is_one_only_among_blanks
    {State : Type} {B : Board State} {G : Scoring.Arena State}
    (game : State) (player : Player) :
  let factor := Scoring.get_partition_possible_factor game player in
  let free := fun c => Scoring.contains (Scoring.get_blank_spaces game) c in
  (factor = 1 \/ factor = 2 \/ factor = 4) /\
  (factor = 1 <->
   Scoring.height game * Scoring.width game =
     Scoring.len (Scoring.get_blank_spaces game) \/
   forall move, In move (get_legal_moves game player) ->
     free (fst move - 1, snd move) = true /\
     free (fst move + 1, snd move) = true /\
     free (fst move, snd move - 1) = true /\
     free (fst move, snd move + 1) = true).
Proof.
  intros factor free. subst factor.
  unfold Scoring.get_partition_possible_factor.
  destruct (Z.eq_dec (Scoring.height game * Scoring.width game)
              (Scoring.len (Scoring.get_blank_spaces game))) as [Hempty | Hused].
  - rewrite Hempty, empty_board. split; [auto|]. split; auto.
  - rewrite not_empty_board by exact Hused.
    destruct (partition_loop_cases (Scoring.get_blank_spaces game)
                (get_legal_moves game player))
      as [(Hone & Hall) | (Hval & move & Hin & Hnot)].
    + rewrite Hone. split; [auto|]. split; auto.
    + split; [destruct Hval as [-> | ->]; auto|].
      split.
      * intros Hone. exfalso. destruct Hval as [H | H]; rewrite H in Hone;
          discriminate.
      * intros [Hempty | Hall]; [contradiction|].
        exfalso. apply Hnot. apply Hall. exact Hin.
Qed.

(** The factors are small. *)

Lemma center_factor_values {State : Type} {B : Board State}
    {G : Scoring.Arena State} (game : State) (player : Player) :
  Scoring.get_center_available_factor game player = 1 \/
  Scoring.get_center_available_factor game player = 2.
Proof.
  unfold Scoring.get_center_available_factor.
  destruct (Z.odd (Scoring.width game) && Z.odd (Scoring.height game));
    [destruct (Scoring.contains _ _)|]; auto.
Qed.

Lemma item_fault_free_values {A : Type} (x : Scoring.answer Move)
    (k : Move -> Scoring.answer A) (r : A) :
  Scoring.and_then x k = Scoring.Value r ->
  exists m, x = Scoring.Value m /\ k m = Scoring.Value r.
Proof. destruct x; cbn; [eauto | discriminate]. Qed.

Lemma reflection_factor_values {State : Type} {B : Board State}
    {G : Scoring.Arena State} (game : State) (player : Player) (v : Z) :
  Scoring.get_reflection_available_factor game player = Scoring.Value v ->
  v = 1 \/ v = 2.
Proof.
  unfold Scoring.get_reflection_available_factor.
  destruct (Scoring.truthy _).
  - intros H. inversion H. auto.
  - destruct (Scoring.unpack (Scoring.get_player_location game player));
      cbn [Scoring.and_then]; [|discriminate].
    destruct (Scoring.unpack
                (Scoring.get_player_location game
                   (Scoring.get_opponent game player)));
      cbn [Scoring.and_then]; [|discriminate].
    destruct (Scoring.index _ _); cbn [Scoring.and_then]; [|discriminate].
    destruct (Scoring.index _ _); cbn [Scoring.and_then]; [|discriminate].
    destruct (Scoring.item _ _); cbn [Scoring.and_then]; [|discriminate].
    destruct (Scoring.item _ _); cbn [Scoring.and_then]; [|discriminate].
    destruct (Scoring.contains _ _); intros H; inversion H; auto.
Qed.

Lemma partition_factor_values {State : Type} {B : Board State}
    {G : Scoring.Arena State} (game : State) (player : Player) :
  Scoring.get_partition_possible_factor game player = 1 \/
  Scoring.get_partition_possible_factor game player = 2 \/
  Scoring.get_partition_possible_factor game player = 4.
Proof.
  unfold Scoring.get_partition_possible_factor.
  destruct (Scoring.truthy _); [auto|].
  destruct (partition_loop_cases (Scoring.get_blank_spaces game)
              (get_legal_moves game player))
    as [(-> & _) | ([-> | ->] & _)]; auto.
Qed.

(** X15. Whenever the competition agent's [custom_score] returns, it
    returns [-inf] for a player who has lost, [+inf] for a player who has
    won, and otherwise a finite number, never [nan]: the difference between
    the player's and the opponent's numbers of legal moves, multiplied by a
    factor between 3 and 8.  So away from decided games the score has the
    sign of that difference. *)
Theorem competition_score_is_a_scaled_move_difference
    {State : Type} {B : Board State} {G : Scoring.Arena State}
    (game : State) (player : Player) (r : Scoring.pyfloat) :
  Scoring.custom_score game player = Scoring.Value r ->
  (Scoring.is_loser game player = true /\ r = Scoring.Num NegInf) \/
  (Scoring.is_loser game player = false /\
   Scoring.is_winner game player = true /\ r = Scoring.Num PosInf) \/
  (Scoring.is_loser game player = false /\
   Scoring.is_winner game player = false /\
   exists k,
     3 <= k <= 8 /\
     r = Scoring.Num
           (Fin (k * (Scoring.len (get_legal_moves game player) -
                      Scoring.len
                        (get_legal_moves game
                           (Scoring.get_opponent game player)))))).
Proof.
  unfold Scoring.custom_score.
  destruct (Scoring.is_loser game player) eqn:Hloser.
  - intros H. inversion H. auto.
  - destruct (Scoring.is_winner game player) eqn:Hwinner.
    + intros H. inversion H. auto.
    + unfold Scoring.heuristic_combined_1_2_3_with_improve_score.
      destruct (Scoring.get_reflection_available_factor game player)
        as [rf | e] eqn:Hrf; cbn [Scoring.and_then]; [|discriminate].
      unfold Scoring.get_improved_score_factor. rewrite Hloser, Hwinner.
      cbn [Scoring.times].
      intros H. inversion H. right. right. repeat split.
      eexists. split; [|reflexivity].
      pose proof (center_factor_values game player).
      pose proof (reflection_factor_values game player rf Hrf).
      pose proof (partition_factor_values game player).
      lia.
Qed.

Lemma competition_score_is_a_scaled_move_difference_witness :
  (Scoring.is_loser three_by_three Player1 = true /\
   Scoring.Num (Fin 7) = Scoring.Num NegInf) \/
  (Scoring.is_loser three_by_three Player1 = false /\
   Scoring.is_winner three_by_three Player1 = true /\
   Scoring.Num (Fin 7) = Scoring.Num PosInf) \/
  (Scoring.is_loser three_by_three Player1 = false /\
   Scoring.is_winner three_by_three Player1 = false /\
   exists k,
     3 <= k <= 8 /\
     Scoring.Num (Fin 7) =
     Scoring.Num
       (Fin (k * (Scoring.len (get_legal_moves three_by_three Player1) -
                  Scoring.len
                    (get_legal_moves three_by_three
                       (Scoring.get_opponent three_by_three Player1)))))).
Proof.
  apply (competition_score_is_a_scaled_move_difference
           three_by_three Player1 (Scoring.Num (Fin 7))).
  vm_compute. reflexivity.
Defined.

(** ** The log level *)







Lemma split_once_at_first_separator (before after : string) :
  ~ In "="%char (list_ascii_of_string before) ->
  Logging.split_once (before ++ String "=" after) = [before; after].
Proof.
  induction before as [|c before IH]; intros Hnone.
  - reflexivity.
  - cbn [append Logging.split_once].
    destruct (Ascii.eqb_spec c "="%char) as [-> | Hc].
    + exfalso. apply Hnone. left. reflexivity.
    + rewrite IH; [reflexivity|].
      intros Hin. apply Hnone. right. exact Hin.
Qed.

(** X17. The level is whatever follows the first ["="] of the first
    argument, read without regard to letter case: when an argument is
    [before ++ "=" ++ after] with no ["="] in [before], [get_log_level]
    returns [after] in upper case if that is one of the four level names
    and raises [ValueError] with it otherwise, also when ["--log="] only
    occurs later in the argument. *)
Theorem log_level_is_read_after_first_separator
    (before after : string) (others : list string) :
  ~ In "="%char (list_ascii_of_string before) ->
  Logging.get_log_level ((before ++ String "=" after)%string :: others) =
  if existsb (String.eqb (Logging.upper after)) Logging.valid_levels
  then Logging.Value (Logging.upper after)
  else Logging.Fault
         (Logging.ValueError ("Invalid log level: " ++ Logging.upper after)).
Proof.
  intros Hnone.
  unfold Logging.get_log_level.
  rewrite split_once_at_first_separator by exact Hnone. cbn [nth_error].
  destruct (existsb (String.eqb (Logging.upper after)) Logging.valid_levels);
    reflexivity.
Qed.

Lemma log_level_is_read_after_first_separator_witness :
  Logging.get_log_level ["--log=Debug"%string] = Logging.Value "DEBUG"%string /\
  Logging.get_log_level ["x=y--log=INFO"%string] =
    Logging.Fault (Logging.ValueError "Invalid log level: Y--LOG=INFO").
Proof.
  split.
  - refine (log_level_is_read_after_first_separator "--log" "Debug" [] _).
    simpl. intros H. repeat (destruct H as [H | H]; [discriminate|]). exact H.
  - refine (log_level_is_read_after_first_separator "x" "y--log=INFO" [] _).
    simpl. intros H. repeat (destruct H as [H | H]; [discriminate|]). exact H.
Defined.

(** ** The competition agent's fallback *)

Lemma competition_deepening_loop_last_completed
    {State : Type} {B : Board State} {G : Scoring.Arena State}
    (self : Competition.CustomPlayer) (time_left : Oracle)
    (game : State) (fuel : nat) :
  forall depth bm c r bm' c',
    Competition.deepening_loop self time_left fuel game depth bm c =
      Some (r, bm', c') ->
    (bm' = bm /\
     exists e, r = Raise e /\
       Competition.alphabeta self time_left (S depth) game
         Competition.neg_inf Competition.pos_inf true c = (Raise e, c')) \/
    (exists n c0 v c1,
       (depth < n)%nat /\
       Competition.alphabeta self time_left n game
         Competition.neg_inf Competition.pos_inf true c0 =
         (Return (v, bm'), c1) /\
       ((r = Return bm' /\ (time_left c1 <= 1 # 1000)%Q /\ c' = S c1) \/
        (exists e, r = Raise e /\ (1 # 1000 < time_left c1)%Q /\
           Competition.alphabeta self time_left (S n) game
             Competition.neg_inf Competition.pos_inf true (S c1) =
             (Raise e, c')))).
Proof.
  induction fuel as [|fuel IH]; intros depth bm c r bm' c';
    cbn [Competition.deepening_loop].
  - discriminate.
  - destruct (Competition.alphabeta self time_left (S depth) game
                Competition.neg_inf Competition.pos_inf true c)
      as [[[v m] | e] c1] eqn:Hsearch.
    + cbn [snd].
      destruct (Qle_bool (time_left c1) (1 # 1000)) eqn:Hlast.
      * intros H. inversion H; subst. right.
        exists (S depth), c, v, c1.
        split; [lia|]. split; [exact Hsearch|]. left.
        repeat split. now apply Qle_bool_iff.
      * intros H. apply IH in H.
        assert (Hgt : (1 # 1000 < time_left c1)%Q).
        { apply Qnot_le_lt. intros Hle. apply Qle_bool_iff in Hle. congruence. }
        destruct H as [(-> & e & -> & Hnext) | (n & c0 & v0 & c2 & Hn & Hrest)].
        -- right. exists (S depth), c, v, c1.
           split; [lia|]. split; [exact Hsearch|]. right.
           exists e. repeat split; assumption.
        -- right. exists n, c0, v0, c2. split; [lia | exact Hrest].
    + intros H. inversion H; subst. left. split; [reflexivity|].
      exists e. split; reflexivity.
Qed.

(** X18. What the competition agent's [get_move] returns when the active
    player has a legal move: either the sentinel, because the very first
    search (at the depth drawn plus one) was aborted by [Timeout], or the
    move of a search that ran to completion at a depth greater than the
    depth drawn, after which the loop was stopped by the reading between
    depths or by a [Timeout] in the next, deeper search. *)
Theorem competition_get_move_returns_last_completed_depth
    {State : Type} {B : Board State} {G : Scoring.Arena State}
    (self : Competition.CustomPlayer) (time_left : Oracle)
    (fuel drawn_depth : nat) (game : State) (m : Move) (clk : nat) :
  get_legal_moves game (active_player game) <> [] ->
  Competition.get_move self time_left fuel drawn_depth game =
    Some (Return m, clk) ->
  (m = no_legal_moves /\
   Competition.alphabeta self time_left (S drawn_depth) game
     Competition.neg_inf Competition.pos_inf true 0%nat = (Raise Timeout, clk)) \/
  (exists n c0 v c1,
     (drawn_depth < n)%nat /\
     Competition.alphabeta self time_left n game
       Competition.neg_inf Competition.pos_inf true c0 = (Return (v, m), c1) /\
     (((time_left c1 <= 1 # 1000)%Q /\ clk = S c1) \/
      ((1 # 1000 < time_left c1)%Q /\
       Competition.alphabeta self time_left (S n) game
         Competition.neg_inf Competition.pos_inf true (S c1) =
         (Raise Timeout, clk)))).
Proof.
  intros Hmoves. unfold Competition.get_move.
  destruct (get_legal_moves game (active_player game)) as [|first others];
    [congruence|].
  destruct (Competition.deepening_loop self time_left fuel game drawn_depth
              no_legal_moves 0) as [[[r bm'] c']|] eqn:Hloop; [|discriminate].
  apply competition_deepening_loop_last_completed in Hloop.
  destruct Hloop as [(-> & e & -> & Hfirst) | (n & c0 & v & c1 & Hn & Hdone & Hend)].
  - destruct e; intros H; inversion H; subst.
    left. split; [reflexivity | exact Hfirst].
  - destruct Hend as [(-> & Hle & ->) | (e & -> & Hgt & Hnext)].
    + intros H. inversion H; subst. right.
      exists n, c0, v, c1. repeat split; auto.
    + destruct e; intros H; inversion H; subst. right.
      exists n, c0, v, c1. split; [exact Hn|]. split; [exact Hdone|].
      right. split; assumption.
Qed.

Lemma competition_get_move_returns_last_completed_depth_witness :
  ((0, 1) = no_legal_moves /\
   Competition.alphabeta competition_player (ample_then_expired 9) 1
     open_position Competition.neg_inf Competition.pos_inf true 0%nat =
     (Raise Timeout, 10%nat)) \/
  (exists n c0 v c1,
     (0 < n)%nat /\
     Competition.alphabeta competition_player (ample_then_expired 9) n
       open_position Competition.neg_inf Competition.pos_inf true c0 =
       (Return (v, (0, 1)), c1) /\
     (((ample_then_expired 9 c1 <= 1 # 1000)%Q /\ 10%nat = S c1) \/
      ((1 # 1000 < ample_then_expired 9 c1)%Q /\
       Competition.alphabeta competition_player (ample_then_expired 9) (S n)
         open_position Competition.neg_inf Competition.pos_inf true (S c1) =
         (Raise Timeout, 10%nat)))).
Proof.
  apply (competition_get_move_returns_last_completed_depth
           competition_player (ample_then_expired 9) 2 0 open_position
           (0, 1) 10%nat).
  - discriminate.
  - vm_compute. reflexivity.
Defined.

(** ** More on the heuristics *)

(** X19. The move-count heuristics are zero-sum: when the opponent of the
    opponent is the player, [get_move_difference_factor] for the opponent
    is the opposite of its value for the player, and so is
    [get_improved_score_factor] as long as neither player has lost or
    won. *)
Theorem move_difference_is_zero_sum
    {State : Type} {B : Board State} {G : Scoring.Arena State}
    (game : State) (player : Player) :
  let opponent := Scoring.get_opponent game player in
  Scoring.get_opponent game opponent = player ->
  Scoring.get_move_difference_factor game opponent =
    - Scoring.get_move_difference_factor game player /\
  (Scoring.is_loser game player = false ->
   Scoring.is_winner game player = false ->
   Scoring.is_loser game opponent = false ->
   Scoring.is_winner game opponent = false ->
   exists d,
     Scoring.get_improved_score_factor game player = Fin d /\
     Scoring.get_improved_score_factor game opponent = Fin (- d)).
Proof.
  intros opponent Hback. split.
  - unfold Scoring.get_move_difference_factor. fold opponent.
    rewrite Hback. lia.
  - intros Hl Hw Hlo Hwo.
    unfold Scoring.get_improved_score_factor. fold opponent.
    rewrite Hl, Hw, Hlo, Hwo, Hback.
    eexists. split; [reflexivity|]. f_equal. lia.
Qed.

Lemma move_difference_is_zero_sum_witness :
  Scoring.get_move_difference_factor three_by_three Player2 =
    - Scoring.get_move_difference_factor three_by_three Player1 /\
  exists d,
    Scoring.get_improved_score_factor three_by_three Player1 = Fin d /\
    Scoring.get_improved_score_factor three_by_three Player2 = Fin (- d).
Proof.
  assert (Hback : Scoring.get_opponent three_by_three
                    (Scoring.get_opponent three_by_three Player1) = Player1)
    by reflexivity.
  destruct (move_difference_is_zero_sum three_by_three Player1 Hback)
    as [Hdiff Hscore].
  split; [exact Hdiff|].
  apply Hscore; reflexivity.
Defined.

(** X20. The combined geometric heuristics are small positive numbers
    that never depend on who is ahead: [heuristic_combined_1_3] lies
    between 2 and 6, and whenever they return, [heuristic_combined_1_2]
    lies between 2 and 4, [heuristic_combined_2_3] between 2 and 6 and
    [heuristic_combined_1_2_3] between 3 and 8. *)
Theorem combined_heuristics_are_bounded
    {State : Type} {B : Board State} {G : Scoring.Arena State}
    (game : State) (player : Player) :
  2 <= Scoring.heuristic_combined_1_3 game player <= 6 /\
  (forall v, Scoring.heuristic_combined_1_2 game player = Scoring.Value v ->
             2 <= v <= 4) /\
  (forall v, Scoring.heuristic_combined_2_3 game player = Scoring.Value v ->
             2 <= v <= 6) /\
  (forall v, Scoring.heuristic_combined_1_2_3 game player = Scoring.Value v ->
             3 <= v <= 8).
Proof.
  pose proof (center_factor_values game player) as Hc.
  pose proof (partition_factor_values game player) as Hp.
  pose proof (reflection_factor_values game player) as Hr.
  unfold Scoring.heuristic_combined_1_3, Scoring.heuristic_combined_1_2,
    Scoring.heuristic_combined_2_3, Scoring.heuristic_combined_1_2_3.
  split; [lia|].
  repeat split;
    destruct (Scoring.get_reflection_available_factor game player) as [rf | e];
    cbn [Scoring.and_then] in *; try discriminate;
    specialize (Hr rf eq_refl); inversion H; lia.
Qed.
